(** * The VAST meta index: partition pruning by synopsis lookup

    A shallow embedding of [meta_index_state] from
    [libvast/src/system/meta_index.cpp] (its [merge], [erase] and
    [lookup] member functions) together with the properties of [lookup]
    that the design document states. *)

From stdpp Require Import gmap strings list sorting.

Open Scope N_scope.

(** ** Partition identifiers

    A [uuid] is sixteen bytes compared lexicographically; read as a
    big-endian number this is the order of [N]. *)
Abbreviation uuid := N.

(** ** Relational operators *)

(** Modelled from the spec: the enumeration [relational_operator] of
    [vast/operator.hpp], which is not among the sources; section 3 lists
    its values. *)
Inductive relational_operator : Type :=
| equal | not_equal
| less | less_equal | greater | greater_equal
| in_ | not_in
| match_ | not_match.

(** Modelled from the spec: [is_negated] of [vast/operator.hpp]; section
    4.B has it true for [!=], [!in] and [!match]. *)
Definition is_negated (op : relational_operator) : bool :=
  match op with
  | not_equal | not_in | not_match => true
  | _ => false
  end.

(** ** The value and type model the meta index consumes

    [vast/data.hpp] and [vast/type.hpp] are not part of the sources at
    hand, so [lookup] is embedded over an interface that lists exactly
    the operations [meta_index.cpp] calls on [data] and [type]. *)
Class ValueModel : Type := {
  (** [vast::data] *)
  data : Type;
  (** [data{std::string}], the wrapping of a layout name *)
  data_of_string : string → data;
  (** [caf::get_if<std::string>(&d)] *)
  get_if_string : data → option string;
  (** [evaluate(lhs, op, rhs)] *)
  evaluate : data → relational_operator → data → bool;
  (** [vast::type] *)
  type : Type;
  (** [t.name()] *)
  type_name : type → string;
  (** [x == y] on types *)
  type_equal : type → type → bool;
  (** [caf::holds_alternative<none_type>(t)] *)
  holds_none_type : type → bool;
  (** [t.attributes({})] *)
  clear_attributes : type → type;
  (** [has_attribute(t, key)] *)
  has_attribute : type → string → bool;
}.

(** Modelled from the spec: [detail::ends_with(s, suffix)] of
    [vast/detail/string.hpp], the suffix test on strings. *)
Definition ends_with (s suffix : string) : bool :=
  let n := String.length s in
  let k := String.length suffix in
  if (k <=? n)%nat then String.eqb (String.substring (n - k) k s) suffix else false.

(** ** Algorithms on sorted vectors of partition identifiers *)

(** [std::sort] with the default [operator<]. *)
Definition sort (l : list uuid) : list uuid := merge_sort N.le l.

(** [std::is_sorted]: no element is smaller than its predecessor. *)
Fixpoint is_sorted (l : list uuid) : bool :=
  match l with
  | [] => true
  | x :: l' =>
      match l' with
      | [] => true
      | y :: _ => negb (y <? x) && is_sorted l'
      end
  end.

(** [std::unique]: of every run of equal neighbours the first is kept. *)
Fixpoint unique_after (prev : uuid) (l : list uuid) : list uuid :=
  match l with
  | [] => []
  | y :: l' => if prev =? y then unique_after prev l' else y :: unique_after y l'
  end.

Definition unique (l : list uuid) : list uuid :=
  match l with
  | [] => []
  | x :: l' => x :: unique_after x l'
  end.

(** [std::set_intersection]: the two-finger walk over both ranges. *)
Fixpoint set_intersection (xs : list uuid) : list uuid → list uuid :=
  fix walk (ys : list uuid) : list uuid :=
    match xs, ys with
    | [], _ | _, [] => []
    | x :: xs', y :: ys' =>
        if x <? y then set_intersection xs' ys
        else if y <? x then walk ys'
        else x :: set_intersection xs' ys'
    end.

(** Modelled from the spec: [detail::inplace_intersect] of
    [vast/detail/set_operations.hpp], the in-place sorted intersection
    (section 4.F): [std::set_intersection] written back into [result]. *)
Definition inplace_intersect (result xs : list uuid) : list uuid :=
  set_intersection result xs.

(** Modelled from the spec: [detail::inplace_unify] of
    [vast/detail/set_operations.hpp], the in-place sorted union (section
    4.F): append, [std::inplace_merge], then erase what [std::unique]
    leaves behind. *)
Definition inplace_unify (xs ys : list uuid) : list uuid :=
  unique (list_merge N.le xs ys).

(** ** Diagnostics and assertions

    [lookup] returns a vector, writes to the log, and checks assertions.
    Of the log only warnings and errors are kept; debug and trace lines
    and the stopwatch do not influence the result and are left out. *)
Inductive diagnostic : Type :=
| warn_field_meta_query    (* "#field meta queries only support string comparisons" *)
| warn_cannot_process      (* "cannot process predicate" *)
| error_empty_expression.  (* "received an empty expression" *)

(** How a call ends: it returns, it stops at a failed [VAST_ASSERT], or
    it runs into undefined behaviour (dereferencing [end()], [caf::get]
    on the wrong alternative). *)
Inductive outcome (A : Type) : Type :=
| Returned (a : A)
| AssertionFailed
| Undefined.
Arguments Returned {A} a.
Arguments AssertionFailed {A}.
Arguments Undefined {A}.

Definition M (A : Type) : Type := list diagnostic * outcome A.

Definition ret {A} (a : A) : M A := ([], Returned a).

Definition bind {A B} (m : M A) (k : A → M B) : M B :=
  match m with
  | (l, Returned a) => let '(l', r) := k a in (l ++ l', r)
  | (l, AssertionFailed) => (l, AssertionFailed)
  | (l, Undefined) => (l, Undefined)
  end.

Notation "'let*' x := m 'in' k" := (bind m (λ x, k))
  (at level 10, x name, m at level 100, k at level 200).
Notation "m ;;; k" := (bind m (λ _, k))
  (at level 100, k at level 200, right associativity).

Definition write_log (d : diagnostic) : M unit := ([d], Returned ()).

Definition undefined_behaviour {A} : M A := ([], Undefined).

Section MetaIndex.

Context `{VM : ValueModel}.

(** ** Synopses *)

(** Modelled from the spec: [synopsis] of [vast/synopsis.hpp], consulted
    by [lookup] only through its virtual
    [lookup(op, view) -> optional<bool>] (section 3). *)
Record synopsis : Type := Synopsis {
  syn_lookup : relational_operator → data → option bool;
}.

(** [synopsis_ptr]: a possibly null owning pointer. *)
Definition synopsis_ptr : Type := option synopsis.

(** Modelled from the spec: [qualified_record_field], the field key of
    section 3 with its layout name, its fully qualified name [fqn()] and
    its type. *)
Record qualified_record_field : Type := QualifiedRecordField {
  layout_name : string;
  fqn : string;
  field_type : type;
}.

(** Modelled from the spec: [partition_synopsis] (section 3). Each of the
    two maps is given by its entries, in the order in which the C++
    container enumerates them. *)
Record partition_synopsis : Type := PartitionSynopsis {
  field_synopses_ : list (qualified_record_field * synopsis_ptr);
  type_synopses_ : list (type * synopsis_ptr);
}.

(** [type_synopses_.find(key)] *)
Fixpoint type_synopses_find (m : list (type * synopsis_ptr)) (key : type)
  : option synopsis_ptr :=
  match m with
  | [] => None
  | (k, v) :: m' => if type_equal k key then Some v else type_synopses_find m' key
  end.

(** ** Expressions

    The AST of [vast/expression.hpp], which is not among the sources, as
    section 3 describes it. *)

(** Modelled from the spec: [meta_extractor::kind], either [type] or
    [field]. *)
Inductive meta_extractor_kind : Type := kind_type | kind_field.

(** Modelled from the spec: the extractors of section 3 and, as in the
    code, [data] as a further alternative: [lookup] visits both [x.lhs]
    and [x.rhs] and tests [x.rhs] for holding [data]. The payload of a
    data extractor is never inspected by [lookup] and is left out. *)
Inductive operand : Type :=
| meta_extractor (kind : meta_extractor_kind)
| field_extractor (field : string)
| type_extractor (t : type)
| data_extractor
| data_operand (d : data).

(** Modelled from the spec: [predicate], with both sides operands. *)
Record predicate : Type := Predicate {
  lhs : operand;
  op : relational_operator;
  rhs : operand;
}.

(** Modelled from the spec: [expression], a variant over [caf::none_t]
    and the four node kinds. *)
#[local] Unset Elimination Schemes.
Inductive expression : Type :=
| none_t
| conjunction (x : list expression)
| disjunction (x : list expression)
| negation (e : expression)
| predicate_expr (p : predicate).
#[local] Set Elimination Schemes.

(** ** The state *)

(** Modelled from the spec: [meta_index_state] of
    [vast/system/meta_index.hpp], the map from partition identifiers to
    partition synopses (section 3). The order in which the map
    enumerates its entries is not observable: every vector assembled
    from it is sorted before it is returned. *)
Record meta_index_state : Type := MetaIndexState {
  synopses : gmap N partition_synopsis;
}.

(** [meta_index_state::erase] *)
Definition erase (st : meta_index_state) (partition : uuid) : meta_index_state :=
  MetaIndexState (delete partition (synopses st)).

(** [meta_index_state::merge] *)
Definition merge (st : meta_index_state) (partition : uuid)
    (ps : partition_synopsis) : meta_index_state :=
  MetaIndexState (<[partition := ps]> (synopses st)).

(** [VAST_ASSERT] comes from [vast/detail/assert.hpp]; whether it checks
    anything is a build option, taken here as a parameter. *)
Variable assertions_enabled : bool.

Definition VAST_ASSERT (c : bool) : M unit :=
  if assertions_enabled && negb c then ([], AssertionFailed) else ret ().

(** ** Lookup *)

Definition result_type : Type := list uuid.

Section Lookup.

Variable st : meta_index_state.

(** The loops that append [part_id] to [result] for the partitions a
    condition selects, in the order the map enumerates them. *)
Definition push_back_selected (select : uuid → partition_synopsis → bool)
  : result_type :=
  foldl (λ result '(part_id, part_syn),
           if select part_id part_syn then result ++ [part_id] else result)
        [] (map_to_list (synopses st)).

(** The lambda [all_partitions]; [memoized_partitions] is a local of each
    [lookup] call and starts out empty. *)
Definition all_partitions (memoized_partitions : result_type) : result_type :=
  if negb (bool_decide (memoized_partitions = []))
     || bool_decide (synopses st = ∅)
  then memoized_partitions
  else sort (memoized_partitions ++ (fst <$> map_to_list (synopses st))).

(** [!opt || *opt] *)
Definition not_ruled_out (opt : option bool) : bool :=
  match opt with
  | Some false => false
  | Some true | None => true
  end.

(** The inner loop of [search] over the fields of one partition: [true]
    when the loop leaves through one of its three [break]s, after having
    pushed the partition. *)
Fixpoint search_fields (matches : qualified_record_field → bool)
    (op : relational_operator) (rhs : data) (part_syn : partition_synopsis)
    (fields : list (qualified_record_field * synopsis_ptr)) : bool :=
  match fields with
  | [] => false
  | (field, syn) :: fields' =>
      if matches field then
        let cleaned_type := clear_attributes (field_type field) in
        match syn with
        | Some syn =>
            if not_ruled_out (syn_lookup syn op rhs) then true
            else search_fields matches op rhs part_syn fields'
        | None =>
            match type_synopses_find (type_synopses_ part_syn) cleaned_type with
            | Some (Some tsyn) =>
                if not_ruled_out (syn_lookup tsyn op rhs) then true
                else search_fields matches op rhs part_syn fields'
            | Some None | None => true
            end
        end
      else search_fields matches op rhs part_syn fields'
  end.

(** The lambda [search] inside the predicate visitor. *)
Definition search (x : predicate) (matches : qualified_record_field → bool)
  : M result_type :=
  VAST_ASSERT (match rhs x with data_operand _ => true | _ => false end);;;
  match rhs x with
  | data_operand rhs =>
      let result :=
        push_back_selected (λ _ part_syn,
          search_fields matches (op x) rhs part_syn (field_synopses_ part_syn)) in
      ret (sort result)
  | _ => undefined_behaviour
  end.

(** The [#type] branch of the meta extractor visitor. *)
Definition lookup_meta_type (x : predicate) (d : data) : result_type :=
  let result :=
    push_back_selected (λ _ part_syn,
      existsb (λ pair, evaluate (data_of_string (layout_name pair.1)) (op x) d)
              (field_synopses_ part_syn)) in
  sort result.

(** The [#field] branch of the meta extractor visitor. *)
Definition lookup_meta_field (x : predicate) (d : data) : M result_type :=
  match get_if_string d with
  | None =>
      write_log warn_field_meta_query;;;
      ret (sort [])
  | Some s =>
      let result :=
        push_back_selected (λ _ part_syn,
          let matching :=
            existsb (λ pair, ends_with (fqn pair.1) s) (field_synopses_ part_syn) in
          eqb (negb (is_negated (op x))) matching) in
      ret (sort result)
  end.

(** The three match lambdas of the type extractor visitor and the one of
    the field extractor visitor. *)
Definition field_name_pred (name : string) (field : qualified_record_field) : bool :=
  ends_with (fqn field) name.

Definition type_name_pred (t : type) (field : qualified_record_field) : bool :=
  String.eqb (type_name (field_type field)) (type_name t).

Definition type_pred (t : type) (field : qualified_record_field) : bool :=
  type_equal (field_type field) t
  && String.eqb (type_name (field_type field)) "".

Definition timestamp_pred (field : qualified_record_field) : bool :=
  has_attribute (field_type field) "timestamp".

(** The visitor [extract_expr], applied to [x.lhs] and [x.rhs]. A meta
    extractor is of kind [type] or [field], so the warning "cannot
    process attribute extractor" after the two branches is never
    reached. *)
Definition lookup_predicate (x : predicate) : M result_type :=
  match lhs x, rhs x with
  | meta_extractor kind, data_operand d =>
      match kind with
      | kind_type => ret (lookup_meta_type x d)
      | kind_field => lookup_meta_field x d
      end
  | field_extractor field, data_operand _ =>
      search x (field_name_pred field)
  | type_extractor t, data_operand _ =>
      let* result :=
        (if holds_none_type t then
           VAST_ASSERT (negb (String.eqb (type_name t) ""));;;
           search x (type_name_pred t)
         else search x (type_pred t)) in
      if String.eqb (type_name t) "timestamp" then
        let* ys := search x timestamp_pred in
        ret (inplace_unify result ys)
      else ret result
  | _, _ =>
      write_log warn_cannot_process;;;
      ret (all_partitions [])
  end.

(** The loop of the conjunction visitor over the children after the
    first. *)
Definition conjunction_loop (lookup : expression → M result_type)
  : list expression → result_type → M result_type :=
  fix loop (x : list expression) (result : result_type) : M result_type :=
    match x with
    | [] => ret result
    | e :: x' =>
        let* xs := lookup e in
        if bool_decide (xs = []) then ret xs
        else
          let result := inplace_intersect result xs in
          VAST_ASSERT (is_sorted result);;;
          loop x' result
    end.

(** The loop of the disjunction visitor. *)
Definition disjunction_loop (lookup : expression → M result_type)
  : list expression → result_type → M result_type :=
  fix loop (x : list expression) (result : result_type) : M result_type :=
    match x with
    | [] => ret result
    | e :: x' =>
        let* xs := lookup e in
        VAST_ASSERT (is_sorted xs);;;
        if bool_decide (length xs = size (synopses st)) then ret xs
        else
          let result := inplace_unify result xs in
          VAST_ASSERT (is_sorted result);;;
          loop x' result
    end.

(** [meta_index_state::lookup] *)
Fixpoint lookup (expr : expression) : M result_type :=
  VAST_ASSERT (negb (match expr with none_t => true | _ => false end));;;
  match expr with
  | conjunction x =>
      VAST_ASSERT (negb (bool_decide (x = [])));;;
      match x with
      | [] => undefined_behaviour
      | e :: x' =>
          let* result := lookup e in
          if negb (bool_decide (result = [])) then
            conjunction_loop lookup x' result
          else ret result
      end
  | disjunction x => disjunction_loop lookup x []
  | negation _ => ret (all_partitions [])
  | predicate_expr x => lookup_predicate x
  | none_t =>
      write_log error_empty_expression;;;
      VAST_ASSERT false;;;
      ret (all_partitions [])
  end.

End Lookup.

End MetaIndex.

(** ** The rest of the state and the actor *)

Section MetaIndexActor.

Context `{VM : ValueModel}.

(** [partition_synopsis::memusage()] is defined with the partition
    synopsis, outside the sources at hand; it is taken as a parameter. *)
Variable partition_memusage : partition_synopsis → N.

(** Whether [VAST_ASSERT] checks anything, as for [lookup]. *)
Variable assertions_enabled : bool.

(** Arithmetic on [size_t], 64 bits wide on the platforms VAST builds
    for: [result += n] wraps around. *)
Definition size_t_add (result n : N) : N := (result + n) mod 2 ^ 64.

(** [meta_index_state::memusage] *)
Definition memusage (st : meta_index_state) : N :=
  foldl (λ result '(id, partition_synopsis),
           size_t_add result (partition_memusage partition_synopsis))
        0 (map_to_list (synopses st)).

(** What [std::map::at] throws for a key that is not in the map. *)
Inductive exception : Type := std_out_of_range.

(** [meta_index_state::at]: the synopsis stored for [partition], or the
    exception of [synopses.at(partition)]. *)
Definition at_ (st : meta_index_state) (partition : uuid)
  : partition_synopsis + exception :=
  match synopses st !! partition with
  | Some ps => inl ps
  | None => inr std_out_of_range
  end.

(** The order of the entries of a [std::map]: by key. *)
Definition key_le (p q : uuid * partition_synopsis) : Prop := p.1 ≤ q.1.

#[global] Instance key_le_dec p q : Decision (key_le p q) :=
  decide (p.1 ≤ q.1).

(** The entries of a [std::map<uuid, partition_synopsis>] in the order
    in which a range-for visits them, by ascending key. *)
Definition in_key_order (ps : gmap N partition_synopsis)
  : list (uuid * partition_synopsis) :=
  merge_sort key_le (map_to_list ps).

(** The three messages the behaviour of [meta_index] handles. *)
Inductive message : Type :=
| atom_merge_map (ps : gmap N partition_synopsis)
| atom_merge (partition : uuid) (synopsis : partition_synopsis)
| lookup_request (expr : expression).

(** What a handler answers: [atom::ok], or what [lookup] comes to. *)
Inductive response : Type :=
| atom_ok
| lookup_response (result : M result_type).

(** The loop of the first handler: one [merge] per entry. *)
Definition merge_entries (st : meta_index_state)
    (entries : list (uuid * partition_synopsis)) : meta_index_state :=
  foldl (λ state '(id, synopsis), merge state id synopsis) st entries.

(** The behaviour [meta_index] returns, as a step on [self->state]. *)
Definition meta_index (st : meta_index_state) (msg : message)
  : meta_index_state * response :=
  match msg with
  | atom_merge_map ps => (merge_entries st (in_key_order ps), atom_ok)
  | atom_merge partition synopsis => (merge st partition synopsis, atom_ok)
  | lookup_request expr =>
      (st, lookup_response (lookup assertions_enabled st expr))
  end.

End MetaIndexActor.

(** * Vocabulary of the properties *)

Abbreviation strictly_ascending := (StronglySorted N.lt).

(** Structural induction on expressions, with the children of a
    conjunction or disjunction covered by [Forall]. *)
Fixpoint expression_ind `{VM : ValueModel} (P : expression → Prop)
    (Hnone : P none_t)
    (Hconj : ∀ x, Forall P x → P (conjunction x))
    (Hdisj : ∀ x, Forall P x → P (disjunction x))
    (Hneg : ∀ e, P e → P (negation e))
    (Hpred : ∀ p, P (predicate_expr p))
    (e : expression) : P e :=
  let all :=
    fix all (x : list expression) : Forall P x :=
      match x with
      | [] => Forall_nil_2 P
      | e :: x' =>
          Forall_cons_2 P e x'
            (expression_ind P Hnone Hconj Hdisj Hneg Hpred e) (all x')
      end in
  match e with
  | none_t => Hnone
  | conjunction x => Hconj x (all x)
  | disjunction x => Hdisj x (all x)
  | negation e => Hneg e (expression_ind P Hnone Hconj Hdisj Hneg Hpred e)
  | predicate_expr p => Hpred p
  end.

Section Vocabulary.

Context `{VM : ValueModel}.

Implicit Types (st : meta_index_state) (e : expression) (x : predicate).
Implicit Types (r xs ys : result_type) (l : list diagnostic) (id : uuid).
Implicit Types (ps : partition_synopsis) (assertions : bool).

(** What a vector of partition identifiers must satisfy to be a result:
    strictly ascending, and made of keys of the state. *)
Definition well_formed_result st r : Prop :=
  strictly_ascending r ∧ ∀ id, id ∈ r → is_Some (synopses st !! id).

(** The vector [search] assembles and sorts for a match lambda. *)
Definition search_result st (matches : qualified_record_field → bool)
    (o : relational_operator) (d : data) : result_type :=
  sort (push_back_selected st (λ _ ps,
    search_fields matches o d ps (field_synopses_ ps))).

(** The result of the type extractor branch when no assertion stops it. *)
Definition type_extractor_result st (t : type) (o : relational_operator)
    (d : data) : result_type :=
  let result :=
    search_result st
      (if holds_none_type t then type_name_pred t else type_pred t) o d in
  if String.eqb (type_name t) "timestamp"
  then inplace_unify result (search_result st timestamp_pred o d)
  else result.

(** The pairs of operands for which [extract_expr] has a dedicated
    overload; every other pair goes to the generic one. *)
Definition has_dedicated_overload x : bool :=
  match lhs x, rhs x with
  | meta_extractor _, data_operand _
  | field_extractor _, data_operand _
  | type_extractor _, data_operand _ => true
  | _, _ => false
  end.

(** The expressions [lookup] is meant for: no empty expression in a
    position that is evaluated, no conjunction without children, and no
    name-only type extractor without a name. What is below a negation is
    never evaluated and may be anything. *)
Fixpoint supported e : bool :=
  match e with
  | none_t => false
  | conjunction x => negb (bool_decide (x = [])) && forallb supported x
  | disjunction x => forallb supported x
  | negation _ => true
  | predicate_expr p =>
      match lhs p, rhs p with
      | type_extractor t, data_operand _ =>
          negb (holds_none_type t && String.eqb (type_name t) "")
      | _, _ => true
      end
  end.

(** The call comes back with a value. *)
Definition returns {A} (m : M A) : Prop := ∃ l a, m = (l, Returned a).

(** The two requests that change the state. *)
Inductive request : Type :=
| merge_request (partition : uuid) (ps : partition_synopsis)
| erase_request (partition : uuid).

(** The partition a request names. *)
Definition request_partition (rq : request) : uuid :=
  match rq with
  | merge_request partition _ | erase_request partition => partition
  end.

(** The state after one request. *)
Definition handle st (rq : request) : meta_index_state :=
  match rq with
  | merge_request partition ps => merge st partition ps
  | erase_request partition => erase st partition
  end.

(** The state after a history of requests, starting from the empty
    index. *)
Definition state_after (history : list request) : meta_index_state :=
  foldl handle (MetaIndexState ∅) history.

(** [id] was merged, and no later request of the history names it. *)
Definition merged_and_kept (history : list request) id : Prop :=
  ∃ ps before after,
    history = before ++ merge_request id ps :: after
    ∧ Forall (λ rq, request_partition rq ≠ id) after.

(** A consulted synopsis accepts when it answers [Some true] or [None]. *)
Definition accepts (answer : option bool) : Prop :=
  answer = Some true ∨ answer = None.

(** Acceptance of one field of a partition: its own synopsis decides if
    there is one; otherwise the synopsis stored for its type without
    attributes decides if there is one; otherwise the field is accepted. *)
Definition field_accepted ps (field : qualified_record_field)
    (syn : synopsis_ptr) (o : relational_operator) (d : data) : Prop :=
  match syn with
  | Some own => accepts (syn_lookup own o d)
  | None =>
      match type_synopses_find (type_synopses_ ps)
                               (clear_attributes (field_type field)) with
      | Some (Some for_type) => accepts (syn_lookup for_type o d)
      | Some None | None => True
      end
  end.

(** Partition [id] has a field that [matches] selects and that is
    accepted. *)
Definition has_accepted_field st id (matches : qualified_record_field → Prop)
    (o : relational_operator) (d : data) : Prop :=
  ∃ ps field syn,
    synopses st !! id = Some ps
    ∧ (field, syn) ∈ field_synopses_ ps
    ∧ matches field
    ∧ field_accepted ps field syn o d.

(** The fields a type extractor with query type [t] selects. *)
Definition type_extractor_selects (t : type) (field : qualified_record_field)
  : Prop :=
  (if holds_none_type t
   then type_name (field_type field) = type_name t
   else type_equal (field_type field) t = true
        ∧ type_name (field_type field) = "")
  ∨ (type_name t = "timestamp"
     ∧ has_attribute (field_type field) "timestamp" = true).

(** The matching rule of a type extractor as the design document words
    it, told apart by whether the query type has a display name. *)
Definition documented_type_extractor_selects (t : type)
    (field : qualified_record_field) : Prop :=
  if String.eqb (type_name t) ""
  then type_equal (field_type field) t = true
       ∧ type_name (field_type field) = ""
  else type_name (field_type field) = type_name t.

(** The fields that the left-hand side of a predicate selects, when it
    is a field extractor or a type extractor. *)
Inductive selects_fields : operand → (qualified_record_field → Prop) → Prop :=
| selects_by_name (name : string) :
    selects_fields (field_extractor name)
                   (λ field, ends_with (fqn field) name = true)
| selects_by_type (t : type) :
    selects_fields (type_extractor t) (type_extractor_selects t).

(** The vector the [#field] branch assembles for a string [s]. *)
Definition meta_field_result st (o : relational_operator) (s : string)
  : result_type :=
  sort (push_back_selected st (λ _ ps,
    eqb (negb (is_negated o))
        (existsb (λ pair, ends_with (fqn pair.1) s) (field_synopses_ ps)))).

(** The sorted, duplicate-free union of two vectors. *)
Definition sorted_union xs ys : result_type := sort (remove_dups (xs ++ ys)).

(** The disjunction as a fold from the left over the results of the
    children: a result as large as the index ends the fold. *)
Fixpoint disjunction_fold (partitions : nat) (results : list result_type)
    (acc : result_type) : result_type :=
  match results with
  | [] => acc
  | r :: results' =>
      if bool_decide (length r = partitions) then r
      else disjunction_fold partitions results' (sorted_union acc r)
  end.

(** The conjunction as a fold from the left over the results of the
    children after the first: an empty result ends the fold. *)
Fixpoint conjunction_fold (results : list result_type) (acc : result_type)
  : result_type :=
  match results with
  | [] => acc
  | r :: results' =>
      if bool_decide (r = []) then []
      else conjunction_fold results' (inplace_intersect acc r)
  end.

(** The children [x] return the results [rs], one by one. *)
Definition children_return assertions st (x : list expression)
    (rs : list result_type) : Prop :=
  Forall2 (λ e r, ∃ l, lookup assertions st e = (l, Returned r)) x rs.

(** *** Lookup one partition at a time *)

(** Whether a predicate keeps a partition, decided on the synopsis of
    that partition alone. *)
Definition predicate_candidate x ps : bool :=
  match lhs x, rhs x with
  | meta_extractor kind_type, data_operand d =>
      existsb (λ pair, evaluate (data_of_string (layout_name pair.1)) (op x) d)
              (field_synopses_ ps)
  | meta_extractor kind_field, data_operand d =>
      match get_if_string d with
      | None => false
      | Some s =>
          eqb (negb (is_negated (op x)))
              (existsb (λ pair, ends_with (fqn pair.1) s) (field_synopses_ ps))
      end
  | field_extractor name, data_operand d =>
      search_fields (field_name_pred name) (op x) d ps (field_synopses_ ps)
  | type_extractor t, data_operand d =>
      search_fields (if holds_none_type t then type_name_pred t else type_pred t)
                    (op x) d ps (field_synopses_ ps)
      || (String.eqb (type_name t) "timestamp"
          && search_fields timestamp_pred (op x) d ps (field_synopses_ ps))
  | _, _ => true
  end.

(** Whether an expression keeps a partition: every child of a
    conjunction does, some child of a disjunction does, a negation and
    the empty expression always do. *)
Fixpoint candidate e ps : bool :=
  match e with
  | none_t => true
  | conjunction x => forallb (λ e, candidate e ps) x
  | disjunction x => existsb (λ e, candidate e ps) x
  | negation _ => true
  | predicate_expr x => predicate_candidate x ps
  end.

(** The partitions of the state whose synopsis passes a test. *)
Definition selected st (test : partition_synopsis → bool) id : Prop :=
  ∃ ps, synopses st !! id = Some ps ∧ test ps = true.

End Vocabulary.

Section ActorVocabulary.

Context `{VM : ValueModel}.

Variable partition_memusage : partition_synopsis → N.

(** The memory that the partitions of a state use, added up without a
    bound. *)
Definition total_memusage (st : meta_index_state) : N :=
  foldr (λ entry total, partition_memusage entry.2 + total) 0
        (map_to_list (synopses st)).

End ActorVocabulary.

(** ** A concrete value model

    An instance of the interface, used to run [lookup] on literal
    states. *)
Module SpecModel.

(** Modelled from the spec: [vast::type] of [vast/type.hpp] as section 3
    describes it, a variant together with a display name (empty when
    absent) and a set of attributes. *)
Inductive type_variant : Type :=
| none_type | bool_type | integer_type | count_type | real_type
| time_type | duration_type | string_type | pattern_type
| address_type | subnet_type | port_type
| enumeration_type (fields : list string)
| list_type (element : vast_type)
| map_type (key value : vast_type)
| record_type (fields : list (string * vast_type))
with vast_type : Type :=
| VastType (variant : type_variant) (name : string) (attributes : list string).

Definition variant_of (t : vast_type) : type_variant :=
  match t with VastType v _ _ => v end.
Definition name_of (t : vast_type) : string :=
  match t with VastType _ n _ => n end.
Definition attributes_of (t : vast_type) : list string :=
  match t with VastType _ _ a => a end.

(** Modelled from the spec: equality of types as section 4.F reads
    [field.type == t], structural and ignoring names. *)
Fixpoint vast_type_equal (x y : vast_type) : bool :=
  match x, y with
  | VastType vx _ ax, VastType vy _ ay =>
      type_variant_equal vx vy && bool_decide (ax = ay)
  end
with type_variant_equal (x y : type_variant) : bool :=
  match x, y with
  | none_type, none_type | bool_type, bool_type | integer_type, integer_type
  | count_type, count_type | real_type, real_type | time_type, time_type
  | duration_type, duration_type | string_type, string_type
  | pattern_type, pattern_type | address_type, address_type
  | subnet_type, subnet_type | port_type, port_type => true
  | enumeration_type fx, enumeration_type fy => bool_decide (fx = fy)
  | list_type ex, list_type ey => vast_type_equal ex ey
  | map_type kx vx, map_type ky vy =>
      vast_type_equal kx ky && vast_type_equal vx vy
  | record_type fx, record_type fy =>
      (fix fields_equal (fx fy : list (string * vast_type)) : bool :=
         match fx, fy with
         | [], [] => true
         | (nx, tx) :: fx', (ny, ty) :: fy' =>
             String.eqb nx ny && vast_type_equal tx ty && fields_equal fx' fy'
         | _, _ => false
         end) fx fy
  | _, _ => false
  end.

(** Modelled from the spec: [vast::data] of [vast/data.hpp], restricted
    to the alternatives for nil, booleans, integers, counts, strings and
    addresses. *)
Inductive vast_data : Type :=
| data_none
| data_bool (b : bool)
| data_integer (i : Z)
| data_count (c : N)
| data_string (s : string)
| data_address (a : N).

Definition as_number (d : vast_data) : option Z :=
  match d with
  | data_integer i => Some i
  | data_count c => Some (Z.of_N c)
  | _ => None
  end.

Definition data_equal (x y : vast_data) : bool :=
  match x, y with
  | data_none, data_none => true
  | data_bool a, data_bool b => Bool.eqb a b
  | data_string a, data_string b => String.eqb a b
  | data_address a, data_address b => (a =? b)%N
  | _, _ =>
      match as_number x, as_number y with
      | Some a, Some b => (a =? b)%Z
      | _, _ => false
      end
  end.

Definition data_less (x y : vast_data) : bool :=
  match x, y with
  | data_string a, data_string b => String.ltb a b
  | data_address a, data_address b => (a <? b)%N
  | _, _ =>
      match as_number x, as_number y with
      | Some a, Some b => (a <? b)%Z
      | _, _ => false
      end
  end.

Definition data_in (x y : vast_data) : bool :=
  match x, y with
  | data_string a, data_string b =>
      match String.index 0 a b with Some _ => true | None => false end
  | _, _ => false
  end.

(** Modelled from the spec: [evaluate] of section 4.B on the
    alternatives above; comparisons that are not defined are false, and
    so is pattern matching, for which there is no alternative here. *)
Definition vast_evaluate (x : vast_data) (op : relational_operator)
    (y : vast_data) : bool :=
  match op with
  | equal => data_equal x y
  | not_equal => negb (data_equal x y)
  | less => data_less x y
  | less_equal => data_less x y || data_equal x y
  | greater => data_less y x
  | greater_equal => data_less y x || data_equal x y
  | in_ => data_in x y
  | not_in => negb (data_in x y)
  | match_ => false
  | not_match => true
  end.

#[export] Instance value_model : ValueModel := {|
  data := vast_data;
  data_of_string := data_string;
  get_if_string := λ d, match d with data_string s => Some s | _ => None end;
  evaluate := vast_evaluate;
  type := vast_type;
  type_name := name_of;
  type_equal := vast_type_equal;
  holds_none_type := λ t, match variant_of t with none_type => true | _ => false end;
  clear_attributes := λ t, VastType (variant_of t) (name_of t) [];
  has_attribute := λ t key, bool_decide (key ∈ attributes_of t);
|}.

End SpecModel.

(** ** The scenario of section 8

    Three partitions: [A] and [C] with layout [conn], [B] with layout
    [dns]. *)
Module Scenario.
Import SpecModel.

(** Modelled from the spec: a Bloom filter synopsis (section 4.D) that
    happens to have no false positives: [==] is answered by membership
    of the probe among the values added, every other operator by
    [None]. *)
Definition bloom (values : list vast_data) : synopsis :=
  Synopsis (λ op probe,
    match op with
    | equal => Some (existsb (data_equal probe) values)
    | _ => None
    end).

(** Modelled from the spec: the min-max synopsis of section 4.D over
    counts, with the observed range [lo..hi]. *)
Definition min_max (lo hi : N) : synopsis :=
  Synopsis (λ op probe,
    match probe with
    | data_count p =>
        match op with
        | equal => if (p <? lo) || (hi <? p) then Some false else None
        | less => if p <=? lo then Some false
                  else if hi <? p then Some true else None
        | less_equal => if p <? lo then Some false
                        else if hi <=? p then Some true else None
        | greater => if hi <=? p then Some false
                     else if p <? lo then Some true else None
        | greater_equal => if hi <? p then Some false
                           else if p <=? lo then Some true else None
        | _ => None
        end
    | _ => None
    end).

Definition plain (v : type_variant) : vast_type := VastType v "" [].

Definition conn_synopsis (hosts : list N) (lo hi : N) : partition_synopsis :=
  PartitionSynopsis
    [ (QualifiedRecordField "conn" "conn.orig_h" (plain address_type),
       Some (bloom (data_address <$> hosts)));
      (QualifiedRecordField "conn" "conn.orig_p" (plain count_type),
       Some (min_max lo hi)) ]
    [].

Definition dns_synopsis : partition_synopsis :=
  PartitionSynopsis
    [ (QualifiedRecordField "dns" "dns.query" (plain string_type),
       Some (bloom [data_string "example.com"])) ]
    [].

Definition A : uuid := 1.
Definition B : uuid := 2.
Definition C : uuid := 3.

(** [10.0.0.1], [10.0.0.2], [10.0.0.3] and [192.168.1.1] as numbers. *)
Definition ip_10_0_0_1 : N := 167772161.
Definition ip_10_0_0_2 : N := 167772162.
Definition ip_10_0_0_3 : N := 167772163.
Definition ip_192_168_1_1 : N := 3232235777.

Definition state : meta_index_state :=
  merge (merge (merge (MetaIndexState ∅)
    C (conn_synopsis [ip_192_168_1_1] 53 53))
    A (conn_synopsis [ip_10_0_0_1; ip_10_0_0_2] 80 443))
    B dns_synopsis.

Definition field_is (name : string) (op : relational_operator)
    (d : vast_data) : expression :=
  predicate_expr (Predicate (field_extractor name) op (data_operand d)).

Definition meta_is (kind : meta_extractor_kind) (op : relational_operator)
    (d : vast_data) : expression :=
  predicate_expr (Predicate (meta_extractor kind) op (data_operand d)).

(** Queries against the scenario. *)
Definition orig_h_is (a : N) : predicate :=
  Predicate (field_extractor "orig_h") equal (data_operand (data_address a)).

Definition conn_query : expression :=
  conjunction
    [ field_is "orig_h" equal (data_address ip_10_0_0_1);
      disjunction [ field_is "orig_p" equal (data_count 80);
                    meta_is kind_type equal (data_string "dns") ] ].

Definition orig_h_either : expression * expression :=
  (field_is "orig_h" equal (data_address ip_10_0_0_1),
   field_is "orig_h" equal (data_address ip_192_168_1_1)).

Definition orig_h_and_p : expression * expression :=
  (field_is "orig_h" equal (data_address ip_10_0_0_1),
   field_is "orig_p" less (data_count 100)).

Definition count_below_100 : predicate :=
  Predicate (type_extractor (plain count_type)) less
            (data_operand (data_count 100)).

Definition field_is_not_query : predicate :=
  Predicate (meta_extractor kind_field) not_equal
            (data_operand (data_string "query")).

(** The scenario with a fourth partition [D] that has no fields. *)
Definition D : uuid := 9.
Definition state_with_empty_partition : meta_index_state :=
  merge state D (PartitionSynopsis [] []).

(** A query for the type [count] named ["port"], against a partition
    whose only field has exactly that type and no synopsis. *)
Definition port : vast_type := VastType count_type "port" [].
Definition resp_p : qualified_record_field :=
  QualifiedRecordField "conn" "conn.resp_p" port.
Definition port_state : meta_index_state :=
  merge (MetaIndexState ∅) 7 (PartitionSynopsis [(resp_p, None)] []).
Definition port_is_80 : predicate :=
  Predicate (type_extractor port) equal (data_operand (data_count 80)).

(** A query for the name-only type ["timestamp"], against a partition
    whose only field has a nameless [time] type with the attribute
    ["timestamp"] and no synopsis. *)
Definition timestamp_alias : vast_type := VastType none_type "timestamp" [].
Definition ts : qualified_record_field :=
  QualifiedRecordField "conn" "conn.ts" (VastType time_type "" ["timestamp"]).
Definition timestamp_state : meta_index_state :=
  merge (MetaIndexState ∅) 8 (PartitionSynopsis [(ts, None)] []).
Definition timestamp_is_0 : predicate :=
  Predicate (type_extractor timestamp_alias) equal (data_operand (data_count 0)).

(** Further queries, and a memory count of 64 bytes for each field of a
    partition synopsis. *)
Definition type_is_conn : predicate :=
  Predicate (meta_extractor kind_type) equal
            (data_operand (data_string "conn")).

Definition any_partition : expression := negation none_t.

Definition bytes_per_field (ps : partition_synopsis) : N :=
  64 * N.of_nat (length (field_synopses_ ps)).

End Scenario.

(** * Properties *)

(** ** Sorted vectors *)

Lemma elem_of_sort (x : uuid) (l : list uuid) : x ∈ sort l ↔ x ∈ l.
Proof. unfold sort. by rewrite merge_sort_Permutation. Qed.

Lemma length_sort (l : list uuid) : length (sort l) = length l.
Proof. unfold sort. by rewrite merge_sort_Permutation. Qed.

Lemma sort_nil : sort [] = [].
Proof. reflexivity. Qed.

Lemma ascending_NoDup_strictly (l : list uuid) :
  StronglySorted N.le l → NoDup l → strictly_ascending l.
Proof.
  induction 1 as [|x l Hl IH Hx]; intros Hnd; [constructor|].
  apply NoDup_cons in Hnd as [Hnotin Hnd].
  constructor; [by apply IH|].
  apply Forall_forall. intros y Hy.
  rewrite Forall_forall in Hx. specialize (Hx y Hy).
  assert (x ≠ y) by (intros ->; done). lia.
Qed.

Lemma strictly_ascending_NoDup (l : list uuid) :
  strictly_ascending l → NoDup l.
Proof.
  induction 1 as [|x l Hl IH Hx]; constructor; [|done].
  intros Hin. rewrite Forall_forall in Hx. specialize (Hx x Hin). lia.
Qed.

Lemma strictly_ascending_weaken (l : list uuid) :
  strictly_ascending l → StronglySorted N.le l.
Proof.
  induction 1 as [|x l Hl IH Hx]; constructor; [done|].
  eapply Forall_impl; [exact Hx|]. intros; simpl in *; lia.
Qed.

Lemma sort_strictly_ascending (l : list uuid) :
  NoDup l → strictly_ascending (sort l).
Proof.
  intros Hnd. apply ascending_NoDup_strictly.
  - apply StronglySorted_merge_sort; apply _.
  - unfold sort. by rewrite merge_sort_Permutation.
Qed.

(** Two strictly ascending vectors with the same elements are the same
    vector. *)
Lemma strictly_ascending_ext (l1 l2 : list uuid) :
  strictly_ascending l1 → strictly_ascending l2 →
  (∀ x, x ∈ l1 ↔ x ∈ l2) → l1 = l2.
Proof.
  intros H1 H2 Hext.
  apply (StronglySorted_unique N.le);
    [by apply strictly_ascending_weaken..|].
  apply NoDup_Permutation; auto using strictly_ascending_NoDup.
Qed.

Lemma is_sorted_correct (l : list uuid) :
  is_sorted l = true ↔ Sorted N.le l.
Proof.
  induction l as [|x [|y l] IH]; simpl.
  - split; [constructor|done].
  - split; [repeat constructor|done].
  - rewrite andb_true_iff, negb_true_iff, N.ltb_ge, IH. split.
    + intros [? ?]. constructor; [done|]. by constructor.
    + intros H. inversion H as [|? ? Hs Hhd]; subst.
      inversion Hhd; subst. done.
Qed.

Lemma is_sorted_strictly_ascending (l : list uuid) :
  strictly_ascending l → is_sorted l = true.
Proof.
  intros H. apply is_sorted_correct, StronglySorted_Sorted.
  by apply strictly_ascending_weaken.
Qed.

Lemma set_intersection_nil_r (xs : list uuid) : set_intersection xs [] = [].
Proof. by destruct xs. Qed.

Lemma set_intersection_cons (x y : uuid) (xs ys : list uuid) :
  set_intersection (x :: xs) (y :: ys) =
    if x <? y then set_intersection xs (y :: ys)
    else if y <? x then set_intersection (x :: xs) ys
    else x :: set_intersection xs ys.
Proof. reflexivity. Qed.

Lemma elem_of_set_intersection (z : uuid) (xs ys : list uuid) :
  z ∈ set_intersection xs ys → z ∈ xs ∧ z ∈ ys.
Proof.
  revert ys. induction xs as [|x xs IHx]; intros ys;
    [destruct ys; by inversion 1|].
  induction ys as [|y ys IHy]; [by inversion 1|].
  rewrite set_intersection_cons.
  destruct (N.ltb_spec x y); [|destruct (N.ltb_spec y x)].
  - intros [? ?]%IHx. split; [by right|done].
  - intros [? ?]%IHy. split; [done|by right].
  - assert (x = y) as -> by lia.
    intros [->|[? ?]%IHx]%elem_of_cons; split; by (left || right).
Qed.

Lemma set_intersection_strictly_ascending (xs ys : list uuid) :
  strictly_ascending xs → strictly_ascending (set_intersection xs ys).
Proof.
  intros Hxs. revert ys.
  induction Hxs as [|x xs Hxs IHx Hx]; intros ys; [by destruct ys; constructor|].
  induction ys as [|y ys IHy]; [constructor|].
  rewrite set_intersection_cons.
  destruct (N.ltb_spec x y); [|destruct (N.ltb_spec y x)]; [done..|].
  constructor; [done|].
  apply Forall_forall. intros z [Hz _]%elem_of_set_intersection.
  rewrite Forall_forall in Hx. by apply Hx.
Qed.

(** On strictly ascending vectors the walk finds every common element. *)
Lemma set_intersection_complete (z : uuid) (xs ys : list uuid) :
  strictly_ascending xs → strictly_ascending ys →
  z ∈ xs → z ∈ ys → z ∈ set_intersection xs ys.
Proof.
  intros Hxs. revert ys.
  induction Hxs as [|x xs Hxs IHx Hx]; intros ys Hys; [by inversion 1|].
  induction Hys as [|y ys Hys IHy Hy]; [by inversion 2|].
  rewrite set_intersection_cons. intros Hzx Hzy.
  rewrite Forall_forall in Hx. rewrite Forall_forall in Hy.
  apply elem_of_cons in Hzx. apply elem_of_cons in Hzy.
  destruct (N.ltb_spec x y); [|destruct (N.ltb_spec y x)].
  - destruct Hzx as [->|Hzx].
    + destruct Hzy as [->|Hzy]; [lia|]. specialize (Hy _ Hzy). lia.
    + apply IHx; [by constructor; [|apply Forall_forall]|done|].
      apply elem_of_cons. done.
  - destruct Hzy as [->|Hzy].
    + destruct Hzx as [->|Hzx]; [lia|]. specialize (Hx _ Hzx). lia.
    + apply IHy; [apply elem_of_cons; done|done].
  - assert (x = y) as -> by lia.
    destruct Hzx as [->|Hzx]; [by left|].
    destruct Hzy as [->|Hzy]; [by left|].
    right. by apply IHx.
Qed.

Lemma elem_of_unique_after_1 (z prev : uuid) (l : list uuid) :
  z ∈ unique_after prev l → z ∈ l.
Proof.
  revert prev. induction l as [|y l IH]; intros prev; simpl; [done|].
  destruct (prev =? y).
  - intros ?%IH. by right.
  - intros [->|?%IH]%elem_of_cons; [by left|by right].
Qed.

Lemma elem_of_unique_after_2 (z prev : uuid) (l : list uuid) :
  z ∈ l → z = prev ∨ z ∈ unique_after prev l.
Proof.
  revert prev. induction l as [|y l IH]; intros prev; simpl; [by inversion 1|].
  intros [->|Hin]%elem_of_cons.
  - destruct (N.eqb_spec prev y) as [->|?]; [by left|right; by left].
  - destruct (N.eqb_spec prev y) as [->|?]; [by apply IH|].
    destruct (IH y Hin) as [->|?]; right; [by left|by right].
Qed.

Lemma elem_of_unique (z : uuid) (l : list uuid) : z ∈ unique l ↔ z ∈ l.
Proof.
  destruct l as [|x l]; simpl; [done|]. rewrite !elem_of_cons. split.
  - intros [->|?%elem_of_unique_after_1]; [by left|by right].
  - intros [->|Hin]; [by left|].
    destruct (elem_of_unique_after_2 z x l Hin); [by left|by right].
Qed.

Lemma unique_after_strictly_ascending (prev : uuid) (l : list uuid) :
  StronglySorted N.le l → Forall (N.le prev) l →
  strictly_ascending (unique_after prev l) ∧ Forall (N.lt prev) (unique_after prev l).
Proof.
  intros Hl. revert prev.
  induction Hl as [|y l Hl IH Hy]; intros prev Hprev; simpl; [by split; constructor|].
  apply Forall_cons in Hprev as [Hle Hprev].
  destruct (N.eqb_spec prev y) as [->|Hne].
  - by apply IH.
  - destruct (IH y Hy) as [Hs Hlt]. split.
    + by constructor.
    + constructor; [lia|]. eapply Forall_impl; [exact Hlt|]. intros; simpl in *; lia.
Qed.

Lemma unique_strictly_ascending (l : list uuid) :
  StronglySorted N.le l → strictly_ascending (unique l).
Proof.
  destruct 1 as [|x l Hl Hx]; simpl; [constructor|].
  destruct (unique_after_strictly_ascending x l Hl Hx). by constructor.
Qed.

Lemma elem_of_inplace_unify (z : uuid) (xs ys : list uuid) :
  z ∈ inplace_unify xs ys ↔ z ∈ xs ∨ z ∈ ys.
Proof.
  unfold inplace_unify.
  by rewrite elem_of_unique, merge_Permutation, elem_of_app.
Qed.

Lemma inplace_unify_strictly_ascending (xs ys : list uuid) :
  strictly_ascending xs → strictly_ascending ys →
  strictly_ascending (inplace_unify xs ys).
Proof.
  intros Hxs Hys.
  apply strictly_ascending_weaken in Hxs, Hys.
  apply unique_strictly_ascending, Sorted_StronglySorted; [apply _|].
  apply Sorted_list_merge; [apply _|by apply StronglySorted_Sorted..].
Qed.

Lemma inplace_unify_nil_l (ys : list uuid) :
  strictly_ascending ys → inplace_unify [] ys = ys.
Proof.
  intros Hys. apply strictly_ascending_ext; [|done|].
  - apply inplace_unify_strictly_ascending; [constructor|done].
  - intros x. rewrite elem_of_inplace_unify. split; [|by right].
    intros [?%elem_of_nil|?]; done.
Qed.

Lemma forallb_elem_of {A} (f : A → bool) (l : list A) (x : A) :
  forallb f l = true → x ∈ l → f x = true.
Proof.
  rewrite forallb_forall. intros H Hin. apply H. by apply list_elem_of_In.
Qed.

(** ** The result monad *)

Lemma bind_Returned {A B} (m : M A) (k : A → M B) (l : list diagnostic) (b : B) :
  bind m k = (l, Returned b) →
  ∃ l1 a l2, m = (l1, Returned a) ∧ k a = (l2, Returned b) ∧ l = l1 ++ l2.
Proof.
  destruct m as [l1 [a| |]]; simpl; [|done..].
  destruct (k a) as [l2 r] eqn:Hk. intros [= <- ->]. by exists l1, a, l2.
Qed.

Lemma bind_Returned_intro {A B} (m : M A) (k : A → M B) l1 a l2 (b : B) :
  m = (l1, Returned a) → k a = (l2, Returned b) →
  bind m k = (l1 ++ l2, Returned b).
Proof. intros -> Hk. simpl. by rewrite Hk. Qed.

Lemma bind_ret_l {A B} (a : A) (k : A → M B) : bind (ret a) k = k a.
Proof. unfold ret; simpl. by destruct (k a). Qed.

Section Properties.

Context `{VM : ValueModel}.

Implicit Types (st : meta_index_state) (e : expression) (x : predicate).
Implicit Types (r xs ys : result_type) (l : list diagnostic) (id : uuid).
Implicit Types (ps : partition_synopsis) (assertions : bool).

Lemma VAST_ASSERT_holds assertions : VAST_ASSERT assertions true = ret ().
Proof. unfold VAST_ASSERT. by rewrite andb_false_r. Qed.

Lemma VAST_ASSERT_disabled (c : bool) : VAST_ASSERT false c = ret ().
Proof. done. Qed.

Lemma VAST_ASSERT_Returned assertions (c : bool) l (u : unit) :
  VAST_ASSERT assertions c = (l, Returned u) →
  l = [] ∧ (assertions = true → c = true).
Proof.
  unfold VAST_ASSERT. destruct assertions, c; simpl; intros [= <-]; done.
Qed.

(** *** The loops over the partitions *)

Lemma foldl_push_back (select : uuid → partition_synopsis → bool)
    (entries : list (uuid * partition_synopsis)) (acc : result_type) :
  foldl (λ result '(part_id, part_syn),
           if select part_id part_syn then result ++ [part_id] else result)
        acc entries =
    acc ++ omap (λ p, if select p.1 p.2 then Some p.1 else None) entries.
Proof.
  revert acc.
  induction entries as [|[part_id part_syn] entries IH]; intros acc; simpl.
  - by rewrite app_nil_r.
  - rewrite IH. destruct (select part_id part_syn); [|done].
    by rewrite <-app_assoc.
Qed.

Lemma push_back_selected_omap st (select : uuid → partition_synopsis → bool) :
  push_back_selected st select =
    omap (λ p, if select p.1 p.2 then Some p.1 else None)
         (map_to_list (synopses st)).
Proof. unfold push_back_selected. by rewrite foldl_push_back. Qed.

Lemma elem_of_push_back_selected st select id :
  id ∈ push_back_selected st select ↔
  ∃ ps, synopses st !! id = Some ps ∧ select id ps = true.
Proof.
  rewrite push_back_selected_omap, list_elem_of_omap. split.
  - intros [[k ps] [Hin Hsel]]. simpl in Hsel.
    apply elem_of_map_to_list in Hin.
    destruct (select k ps) eqn:Hs; [|done]. injection Hsel as <-. eauto.
  - intros (ps & Hps & Hsel). exists (id, ps). simpl. rewrite Hsel.
    split; [by apply elem_of_map_to_list|done].
Qed.

Lemma NoDup_push_back_selected st select :
  NoDup (push_back_selected st select).
Proof.
  rewrite push_back_selected_omap.
  apply (sublist_NoDup _ ((map_to_list (synopses st)).*1));
    [apply NoDup_fst_map_to_list|].
  induction (map_to_list (synopses st)) as [|[k ps] entries IH]; simpl; [done|].
  destruct (select k ps); by constructor.
Qed.

Lemma sort_push_back_selected_wf st select :
  well_formed_result st (sort (push_back_selected st select)).
Proof.
  split.
  - apply sort_strictly_ascending, NoDup_push_back_selected.
  - intros id (ps & Hps & _)%elem_of_sort%elem_of_push_back_selected. eauto.
Qed.

Lemma well_formed_result_nil st : well_formed_result st [].
Proof. split; [constructor|]. by intros id ?%elem_of_nil. Qed.

(** *** [all_partitions] *)

Lemma all_partitions_fresh st :
  all_partitions st [] = sort (fst <$> map_to_list (synopses st)).
Proof.
  unfold all_partitions. simpl. case_bool_decide as Hempty; [|done].
  by rewrite Hempty, map_to_list_empty.
Qed.

Lemma elem_of_all_partitions st id :
  id ∈ all_partitions st [] ↔ is_Some (synopses st !! id).
Proof.
  rewrite all_partitions_fresh, elem_of_sort, list_elem_of_fmap. split.
  - intros ([k ps] & -> & Hin). apply elem_of_map_to_list in Hin. eauto.
  - intros [ps Hps]. exists (id, ps). split; [done|].
    by apply elem_of_map_to_list.
Qed.

Lemma all_partitions_strictly_ascending st :
  strictly_ascending (all_partitions st []).
Proof.
  rewrite all_partitions_fresh.
  apply sort_strictly_ascending, NoDup_fst_map_to_list.
Qed.

Lemma length_all_partitions st :
  length (all_partitions st []) = size (synopses st).
Proof.
  by rewrite all_partitions_fresh, length_sort, length_fmap, length_map_to_list.
Qed.

Lemma all_partitions_wf st : well_formed_result st (all_partitions st []).
Proof.
  split; [apply all_partitions_strictly_ascending|].
  intros id. by rewrite elem_of_all_partitions.
Qed.

(** A result with as many elements as there are partitions is the
    vector of all partitions. *)
Lemma full_result_all_partitions st r :
  well_formed_result st r → length r = size (synopses st) →
  r = all_partitions st [].
Proof.
  intros [Hasc Hkeys] Hlen.
  apply (StronglySorted_unique N.le);
    [by apply strictly_ascending_weaken
    |apply strictly_ascending_weaken, all_partitions_strictly_ascending|].
  apply submseteq_length_Permutation.
  - apply NoDup_submseteq; [by apply strictly_ascending_NoDup|].
    intros id Hid. by apply elem_of_all_partitions, Hkeys.
  - rewrite length_all_partitions. lia.
Qed.

(** *** Unfolding [lookup] *)

Lemma lookup_none_t assertions st :
  lookup assertions st none_t =
    (VAST_ASSERT assertions false;;;
     write_log error_empty_expression;;;
     VAST_ASSERT assertions false;;;
     ret (all_partitions st [])).
Proof. reflexivity. Qed.

Lemma lookup_conjunction assertions st (x : list expression) :
  lookup assertions st (conjunction x) =
    (VAST_ASSERT assertions true;;;
     VAST_ASSERT assertions (negb (bool_decide (x = [])));;;
     match x with
     | [] => undefined_behaviour
     | e :: x' =>
         let* result := lookup assertions st e in
         if negb (bool_decide (result = [])) then
           conjunction_loop assertions (lookup assertions st) x' result
         else ret result
     end).
Proof. reflexivity. Qed.

Lemma lookup_disjunction assertions st (x : list expression) :
  lookup assertions st (disjunction x) =
    (VAST_ASSERT assertions true;;;
     disjunction_loop assertions st (lookup assertions st) x []).
Proof. reflexivity. Qed.

Lemma lookup_negation assertions st e :
  lookup assertions st (negation e) = ([], Returned (all_partitions st [])).
Proof.
  change (lookup assertions st (negation e))
    with (VAST_ASSERT assertions true;;; ret (all_partitions st [])).
  by rewrite VAST_ASSERT_holds.
Qed.

Lemma lookup_predicate_expr assertions st x :
  lookup assertions st (predicate_expr x) = lookup_predicate assertions st x.
Proof.
  change (lookup assertions st (predicate_expr x))
    with (VAST_ASSERT assertions true;;; lookup_predicate assertions st x).
  by rewrite VAST_ASSERT_holds, bind_ret_l.
Qed.

Lemma conjunction_loop_cons assertions (f : expression → M result_type)
    e (x : list expression) r :
  conjunction_loop assertions f (e :: x) r =
    (let* xs := f e in
     if bool_decide (xs = []) then ret xs
     else
       VAST_ASSERT assertions (is_sorted (inplace_intersect r xs));;;
       conjunction_loop assertions f x (inplace_intersect r xs)).
Proof. reflexivity. Qed.

Lemma disjunction_loop_cons assertions st (f : expression → M result_type)
    e (x : list expression) r :
  disjunction_loop assertions st f (e :: x) r =
    (let* xs := f e in
     VAST_ASSERT assertions (is_sorted xs);;;
     if bool_decide (length xs = size (synopses st)) then ret xs
     else
       VAST_ASSERT assertions (is_sorted (inplace_unify r xs));;;
       disjunction_loop assertions st f x (inplace_unify r xs)).
Proof. reflexivity. Qed.

(** *** [search] *)

Lemma search_data assertions st x matches (d : data) :
  rhs x = data_operand d →
  search assertions st x matches =
    ([], Returned (search_result st matches (op x) d)).
Proof.
  intros Hrhs. unfold search. rewrite Hrhs, VAST_ASSERT_holds. done.
Qed.

Lemma elem_of_search_result st matches o (d : data) id :
  id ∈ search_result st matches o d ↔
  ∃ ps, synopses st !! id = Some ps
        ∧ search_fields matches o d ps (field_synopses_ ps) = true.
Proof. unfold search_result. by rewrite elem_of_sort, elem_of_push_back_selected. Qed.

Lemma search_result_wf st matches o (d : data) :
  well_formed_result st (search_result st matches o d).
Proof. apply sort_push_back_selected_wf. Qed.

Lemma inplace_unify_wf st xs ys :
  well_formed_result st xs → well_formed_result st ys →
  well_formed_result st (inplace_unify xs ys).
Proof.
  intros [Hx Hkx] [Hy Hky]. split.
  - by apply inplace_unify_strictly_ascending.
  - intros id [?|?]%elem_of_inplace_unify; auto.
Qed.

Lemma inplace_intersect_wf st xs ys :
  well_formed_result st xs →
  well_formed_result st (inplace_intersect xs ys).
Proof.
  intros [Hx Hkx]. split.
  - by apply set_intersection_strictly_ascending.
  - intros id [? _]%elem_of_set_intersection. auto.
Qed.

(** *** The predicate visitor, branch by branch *)

Lemma lookup_field_extractor assertions st x (field : string) (d : data) :
  lhs x = field_extractor field → rhs x = data_operand d →
  lookup_predicate assertions st x =
    ([], Returned (search_result st (field_name_pred field) (op x) d)).
Proof.
  intros Hl Hr. unfold lookup_predicate. rewrite Hl, Hr.
  by apply search_data.
Qed.

Lemma lookup_type_extractor assertions st x (t : type) (d : data) :
  lhs x = type_extractor t → rhs x = data_operand d →
  lookup_predicate assertions st x =
    if assertions && holds_none_type t && String.eqb (type_name t) ""
    then ([], AssertionFailed)
    else ([], Returned (type_extractor_result st t (op x) d)).
Proof.
  intros Hl Hr. unfold lookup_predicate, type_extractor_result.
  rewrite Hl, Hr, !(search_data _ _ _ _ d Hr).
  destruct (holds_none_type t); [|rewrite andb_false_r; simpl].
  - unfold VAST_ASSERT. rewrite negb_involutive, andb_true_r.
    destruct (assertions && _); simpl; [done|].
    by destruct (String.eqb (type_name t) "timestamp").
  - by destruct (String.eqb (type_name t) "timestamp").
Qed.

Lemma lookup_type_extractor_Returned assertions st x (t : type) (d : data) l r :
  lhs x = type_extractor t → rhs x = data_operand d →
  lookup_predicate assertions st x = (l, Returned r) →
  l = [] ∧ r = type_extractor_result st t (op x) d.
Proof.
  intros Hl Hr. rewrite (lookup_type_extractor _ _ _ t d Hl Hr).
  destruct (_ && _); [done|]. by intros [= <- <-].
Qed.

Lemma lookup_meta_type_extractor assertions st x (d : data) :
  lhs x = meta_extractor kind_type → rhs x = data_operand d →
  lookup_predicate assertions st x = ([], Returned (lookup_meta_type st x d)).
Proof. intros Hl Hr. unfold lookup_predicate. by rewrite Hl, Hr. Qed.

Lemma lookup_meta_field_extractor assertions st x (d : data) :
  lhs x = meta_extractor kind_field → rhs x = data_operand d →
  lookup_predicate assertions st x = lookup_meta_field st x d.
Proof. intros Hl Hr. unfold lookup_predicate. by rewrite Hl, Hr. Qed.

Lemma lookup_generic_overload assertions st x :
  has_dedicated_overload x = false →
  lookup_predicate assertions st x =
    ([warn_cannot_process], Returned (all_partitions st [])).
Proof.
  unfold has_dedicated_overload, lookup_predicate.
  by destruct (lhs x) as [[]| | | |], (rhs x).
Qed.

Lemma type_extractor_result_wf st (t : type) o (d : data) :
  well_formed_result st (type_extractor_result st t o d).
Proof.
  unfold type_extractor_result.
  destruct (String.eqb _ _); [apply inplace_unify_wf|]; apply search_result_wf.
Qed.

Lemma lookup_meta_field_wf st x (d : data) l r :
  lookup_meta_field st x d = (l, Returned r) → well_formed_result st r.
Proof.
  unfold lookup_meta_field. destruct (get_if_string d).
  - intros [= <- <-]. apply sort_push_back_selected_wf.
  - intros [= <- <-]. apply well_formed_result_nil.
Qed.

Lemma lookup_predicate_wf assertions st x l r :
  lookup_predicate assertions st x = (l, Returned r) → well_formed_result st r.
Proof.
  destruct (lhs x) as [[]|field|t| |dl] eqn:Hl;
    destruct (rhs x) as [k'|f'|t'| |d] eqn:Hr;
    try (rewrite lookup_generic_overload
           by (unfold has_dedicated_overload; by rewrite Hl, ?Hr);
         intros [= <- <-]; apply all_partitions_wf).
  - rewrite (lookup_meta_type_extractor _ _ _ d Hl Hr). intros [= <- <-].
    apply sort_push_back_selected_wf.
  - rewrite (lookup_meta_field_extractor _ _ _ d Hl Hr).
    apply lookup_meta_field_wf.
  - rewrite (lookup_field_extractor _ _ _ field d Hl Hr). intros [= <- <-].
    apply search_result_wf.
  - intros H.
    apply (lookup_type_extractor_Returned _ _ _ t d l r Hl Hr) in H as [_ ->].
    apply type_extractor_result_wf.
Qed.

(** *** Every vector [lookup] returns is a well-formed result *)

Lemma conjunction_loop_wf assertions st (x : list expression) r0 l r :
  Forall (λ e, ∀ l r, lookup assertions st e = (l, Returned r) →
                      well_formed_result st r) x →
  well_formed_result st r0 →
  conjunction_loop assertions (lookup assertions st) x r0 = (l, Returned r) →
  well_formed_result st r.
Proof.
  intros Hx. revert r0 l.
  induction Hx as [|e x He Hx IH]; intros r0 l Hr0.
  - by intros [= <- <-].
  - rewrite conjunction_loop_cons.
    intros (l1 & xs & l2 & Hxs & Hk & _)%bind_Returned.
    case_bool_decide.
    + injection Hk as <- <-. by eapply He.
    + apply bind_Returned in Hk as (? & ? & l3 & _ & Hk & _).
      eapply IH; [|exact Hk]. by apply inplace_intersect_wf.
Qed.

Lemma disjunction_loop_wf assertions st (x : list expression) r0 l r :
  Forall (λ e, ∀ l r, lookup assertions st e = (l, Returned r) →
                      well_formed_result st r) x →
  well_formed_result st r0 →
  disjunction_loop assertions st (lookup assertions st) x r0 = (l, Returned r) →
  well_formed_result st r.
Proof.
  intros Hx. revert r0 l.
  induction Hx as [|e x He Hx IH]; intros r0 l Hr0.
  - by intros [= <- <-].
  - rewrite disjunction_loop_cons.
    intros (l1 & xs & l2 & Hxs & Hk & _)%bind_Returned.
    apply bind_Returned in Hk as (? & ? & l3 & _ & Hk & _).
    case_bool_decide.
    + injection Hk as <- <-. by eapply He.
    + apply bind_Returned in Hk as (? & ? & l4 & _ & Hk & _).
      eapply IH; [|exact Hk]. apply inplace_unify_wf; [done|by eapply He].
Qed.

Lemma lookup_wf assertions st e l r :
  lookup assertions st e = (l, Returned r) → well_formed_result st r.
Proof.
  revert l r. induction e as [|x IH|x IH|e IH|p] using expression_ind;
    intros l r.
  - rewrite lookup_none_t.
    intros (? & ? & ? & _ & Hk & _)%bind_Returned.
    apply bind_Returned in Hk as (? & ? & ? & _ & Hk & _).
    apply bind_Returned in Hk as (? & ? & ? & _ & Hk & _).
    injection Hk as <- <-. apply all_partitions_wf.
  - rewrite lookup_conjunction.
    intros (? & ? & ? & _ & Hk & _)%bind_Returned.
    apply bind_Returned in Hk as (? & ? & ? & _ & Hk & _).
    destruct x as [|e x]; [done|].
    apply Forall_cons in IH as [He Hx].
    apply bind_Returned in Hk as (? & r1 & ? & Hr1 & Hk & _).
    apply He in Hr1.
    destruct (negb _).
    + by eapply conjunction_loop_wf.
    + by injection Hk as <- <-.
  - rewrite lookup_disjunction.
    intros (? & ? & ? & _ & Hk & _)%bind_Returned.
    eapply disjunction_loop_wf; [done|apply well_formed_result_nil|done].
  - rewrite lookup_negation. intros [= <- <-]. apply all_partitions_wf.
  - rewrite lookup_predicate_expr. apply lookup_predicate_wf.
Qed.

(** *** [lookup] returns on every supported expression *)

Lemma VAST_ASSERT_sorted assertions r :
  strictly_ascending r → VAST_ASSERT assertions (is_sorted r) = ret ().
Proof.
  intros Hr. rewrite (is_sorted_strictly_ascending r Hr).
  apply VAST_ASSERT_holds.
Qed.

Lemma lookup_predicate_returns assertions st x :
  supported (predicate_expr x) = true →
  returns (lookup_predicate assertions st x).
Proof.
  simpl.
  destruct (lhs x) as [[]|field|t| |dl] eqn:Hl;
    destruct (rhs x) as [k'|f'|t'| |d] eqn:Hr; intros Hs;
    try (rewrite lookup_generic_overload
           by (unfold has_dedicated_overload; by rewrite Hl, ?Hr);
         by eexists _, _).
  - rewrite (lookup_meta_type_extractor _ _ _ d Hl Hr). by eexists _, _.
  - rewrite (lookup_meta_field_extractor _ _ _ d Hl Hr).
    unfold lookup_meta_field. destruct (get_if_string d); by eexists _, _.
  - rewrite (lookup_field_extractor _ _ _ field d Hl Hr). by eexists _, _.
  - rewrite (lookup_type_extractor _ _ _ t d Hl Hr).
    apply negb_true_iff in Hs. rewrite <-andb_assoc, Hs, andb_false_r.
    by eexists _, _.
Qed.

Lemma conjunction_loop_returns assertions st (x : list expression) r0 :
  Forall (λ e, returns (lookup assertions st e)) x →
  well_formed_result st r0 →
  returns (conjunction_loop assertions (lookup assertions st) x r0).
Proof.
  intros Hx. revert r0.
  induction Hx as [|e x (l1 & xs & He) Hx IH]; intros r0 Hr0.
  - by eexists _, _.
  - rewrite conjunction_loop_cons, He. simpl.
    case_bool_decide; [by eexists _, _|].
    pose proof (inplace_intersect_wf st r0 xs Hr0) as Hwf.
    rewrite VAST_ASSERT_sorted by apply Hwf. simpl.
    destruct (IH _ Hwf) as (l2 & r & ->). by eexists _, _.
Qed.

Lemma disjunction_loop_returns assertions st (x : list expression) r0 :
  Forall (λ e, returns (lookup assertions st e)) x →
  well_formed_result st r0 →
  returns (disjunction_loop assertions st (lookup assertions st) x r0).
Proof.
  intros Hx. revert r0.
  induction Hx as [|e x (l1 & xs & He) Hx IH]; intros r0 Hr0.
  - by eexists _, _.
  - pose proof (lookup_wf _ _ _ _ _ He) as Hxs.
    rewrite disjunction_loop_cons, He. simpl.
    rewrite VAST_ASSERT_sorted by apply Hxs. simpl.
    case_bool_decide; [by eexists _, _|].
    pose proof (inplace_unify_wf st r0 xs Hr0 Hxs) as Hwf.
    rewrite VAST_ASSERT_sorted by apply Hwf. simpl.
    destruct (IH _ Hwf) as (l2 & r & ->). by eexists _, _.
Qed.

Lemma lookup_returns assertions st e :
  supported e = true → returns (lookup assertions st e).
Proof.
  induction e as [|x IH|x IH|e IH|p] using expression_ind; intros Hs.
  - done.
  - simpl in Hs. apply andb_true_iff in Hs as [Hne Hall].
    rewrite lookup_conjunction, VAST_ASSERT_holds, Hne, VAST_ASSERT_holds.
    simpl. destruct x as [|e x]; [done|].
    apply Forall_cons in IH as [He Hx]. simpl in Hall.
    apply andb_true_iff in Hall as [Hse Hsx].
    destruct (He Hse) as (l1 & r1 & Hr1). rewrite Hr1. simpl.
    destruct (negb (bool_decide (r1 = []))); [|by eexists _, _].
    destruct (conjunction_loop_returns assertions st x r1) as (l2 & r & ->);
      [|by eapply lookup_wf|simpl; by eexists _, _].
    rewrite Forall_forall in Hx. apply Forall_forall. intros e' He'.
    apply Hx; [done|]. by eapply forallb_elem_of.
  - simpl in Hs.
    rewrite lookup_disjunction, VAST_ASSERT_holds. simpl.
    destruct (disjunction_loop_returns assertions st x []) as (l2 & r & ->);
      [|apply well_formed_result_nil|simpl; by eexists _, _].
    rewrite Forall_forall in IH. apply Forall_forall. intros e' He'.
    apply IH; [done|]. by eapply forallb_elem_of.
  - rewrite lookup_negation. by eexists _, _.
  - rewrite lookup_predicate_expr. by apply lookup_predicate_returns.
Qed.

(** *** Histories of merges and erasures *)

Lemma state_after_key (history : list request) id :
  is_Some (synopses (state_after history) !! id) → merged_and_kept history id.
Proof.
  unfold state_after.
  induction history as [|rq history IH] using rev_ind.
  - simpl. rewrite lookup_empty. by intros [? ?].
  - rewrite foldl_app. simpl.
    destruct rq as [partition ps|partition]; simpl;
      destruct (decide (partition = id)) as [->|Hne].
    + intros _. exists ps, history, []. split; [done|constructor].
    + rewrite lookup_insert_ne by done.
      intros (ps' & before & after & -> & Hafter)%IH.
      exists ps', before, (after ++ [merge_request partition ps]).
      split; [by rewrite <-app_assoc|].
      apply Forall_app. split; [done|]. by repeat constructor.
    + rewrite lookup_delete_eq. by intros [? ?].
    + rewrite lookup_delete_ne by done.
      intros (ps' & before & after & -> & Hafter)%IH.
      exists ps', before, (after ++ [erase_request partition]).
      split; [by rewrite <-app_assoc|].
      apply Forall_app. split; [done|]. by repeat constructor.
Qed.

(** *** What [search] selects *)

Lemma not_ruled_out_accepts (answer : option bool) :
  not_ruled_out answer = true ↔ accepts answer.
Proof.
  unfold accepts. destruct answer as [[]|]; simpl.
  - split; [by left|done].
  - split; [done|]. by intros [?|?].
  - split; [by right|done].
Qed.

Lemma search_fields_spec (matches : qualified_record_field → bool) o (d : data)
    ps (fields : list (qualified_record_field * synopsis_ptr)) :
  search_fields matches o d ps fields = true ↔
  ∃ field syn, (field, syn) ∈ fields ∧ matches field = true
               ∧ field_accepted ps field syn o d.
Proof.
  induction fields as [|[field syn] fields IH]; simpl.
  - split; [done|]. by intros (? & ? & ?%elem_of_nil & _).
  - assert (search_fields matches o d ps fields = true →
            ∃ field0 syn0, (field0, syn0) ∈ (field, syn) :: fields
              ∧ matches field0 = true ∧ field_accepted ps field0 syn0 o d)
      as Hrest.
    { intros (f & sy & ? & ? & ?)%IH. exists f, sy. split; [by right|done]. }
    assert (field_accepted ps field syn o d → matches field = true →
            ∃ field0 syn0, (field0, syn0) ∈ (field, syn) :: fields
              ∧ matches field0 = true ∧ field_accepted ps field0 syn0 o d)
      as Hhere.
    { intros ? ?. exists field, syn. split; [by left|done]. }
    assert (∀ P : Prop,
      (matches field = true → field_accepted ps field syn o d → P) →
      (search_fields matches o d ps fields = true → P) →
      (∃ field0 syn0, (field0, syn0) ∈ (field, syn) :: fields
         ∧ matches field0 = true ∧ field_accepted ps field0 syn0 o d) → P)
      as Hcases.
    { intros P Hh Hr (f & sy & [[= -> ->]|Hin]%elem_of_cons & Hm & Hacc).
      - by apply Hh.
      - apply Hr, IH. by exists f, sy. }
    destruct (matches field) eqn:Hm.
    + destruct syn as [own|]; simpl.
      * destruct (not_ruled_out (syn_lookup own o d)) eqn:Hown.
        -- split; [intros _|done]. apply Hhere; [|done].
           by apply not_ruled_out_accepts.
        -- split; [done|]. apply Hcases; [|done].
           intros _ Hacc%not_ruled_out_accepts. simpl in Hacc. congruence.
      * unfold field_accepted in Hhere, Hcases.
        destruct (type_synopses_find _ _) as [[for_type|]|].
        -- destruct (not_ruled_out (syn_lookup for_type o d)) eqn:Hfor.
           ++ split; [intros _|done]. apply Hhere; [|done].
              by apply not_ruled_out_accepts.
           ++ split; [done|]. apply Hcases; [|done].
              intros _ Hacc%not_ruled_out_accepts. congruence.
        -- split; [intros _|done]. by apply Hhere.
        -- split; [intros _|done]. by apply Hhere.
    + split; [done|]. apply Hcases; [|done]. done.
Qed.

Lemma elem_of_search_result_accepted st (matches : qualified_record_field → bool)
    o (d : data) id :
  id ∈ search_result st matches o d ↔
  has_accepted_field st id (λ field, matches field = true) o d.
Proof.
  rewrite elem_of_search_result. unfold has_accepted_field. split.
  - intros (ps & Hps & (field & syn & ? & ? & ?)%search_fields_spec).
    by exists ps, field, syn.
  - intros (ps & field & syn & Hps & ? & ? & ?). exists ps. split; [done|].
    apply search_fields_spec. by exists field, syn.
Qed.

Lemma has_accepted_field_or st id (m1 m2 : qualified_record_field → Prop) o (d : data) :
  has_accepted_field st id (λ field, m1 field ∨ m2 field) o d ↔
  has_accepted_field st id m1 o d ∨ has_accepted_field st id m2 o d.
Proof.
  unfold has_accepted_field. split.
  - intros (ps & field & syn & ? & ? & [?|?] & ?);
      [left|right]; by exists ps, field, syn.
  - intros [(ps & field & syn & ? & ? & ? & ?)|(ps & field & syn & ? & ? & ? & ?)];
      exists ps, field, syn; auto.
Qed.

Lemma has_accepted_field_iff st id (m1 m2 : qualified_record_field → Prop) o (d : data) :
  (∀ field, m1 field ↔ m2 field) →
  has_accepted_field st id m1 o d ↔ has_accepted_field st id m2 o d.
Proof.
  intros Hm. unfold has_accepted_field.
  split; intros (ps & field & syn & ? & ? & ? & ?);
    exists ps, field, syn; split_and!; try done; by apply Hm.
Qed.

Lemma elem_of_type_extractor_result st (t : type) o (d : data) id :
  id ∈ type_extractor_result st t o d ↔
  has_accepted_field st id (type_extractor_selects t) o d.
Proof.
  unfold type_extractor_result, type_extractor_selects.
  rewrite has_accepted_field_or.
  assert (id ∈ search_result st
            (if holds_none_type t then type_name_pred t else type_pred t) o d ↔
          has_accepted_field st id (λ field,
            if holds_none_type t
            then type_name (field_type field) = type_name t
            else type_equal (field_type field) t = true
                 ∧ type_name (field_type field) = "") o d) as Hmain.
  { rewrite elem_of_search_result_accepted. apply has_accepted_field_iff.
    intros field. destruct (holds_none_type t).
    - unfold type_name_pred. apply String.eqb_eq.
    - unfold type_pred. by rewrite andb_true_iff, String.eqb_eq. }
  destruct (String.eqb_spec (type_name t) "timestamp") as [Hts|Hts].
  - rewrite elem_of_inplace_unify, Hmain, elem_of_search_result_accepted.
    apply or_iff_compat_l, has_accepted_field_iff. intros field.
    unfold timestamp_pred. by split; [|intros [_ ?]].
  - rewrite Hmain. split; [by left|]. intros [?|Hno]; [done|].
    by destruct Hno as (? & ? & ? & _ & _ & [? _] & _).
Qed.

(** *** The meta extractor branches *)

Lemma existsb_field_synopses (f : qualified_record_field → bool)
    (fields : list (qualified_record_field * synopsis_ptr)) :
  existsb (λ pair, f pair.1) fields = true ↔
  ∃ field syn, (field, syn) ∈ fields ∧ f field = true.
Proof.
  rewrite existsb_exists. split.
  - intros ([field syn] & Hin%list_elem_of_In & ?). by exists field, syn.
  - intros (field & syn & Hin%list_elem_of_In & ?). by exists (field, syn).
Qed.

Lemma lookup_meta_field_string st x (d : data) (s : string) :
  get_if_string d = Some s →
  lookup_meta_field st x d = ([], Returned (meta_field_result st (op x) s)).
Proof. intros Hs. unfold lookup_meta_field. by rewrite Hs. Qed.

Lemma elem_of_meta_field_result st o (s : string) id :
  id ∈ meta_field_result st o s ↔
  ∃ ps, synopses st !! id = Some ps
        ∧ (is_negated o = false ↔
           ∃ field syn, (field, syn) ∈ field_synopses_ ps
                        ∧ ends_with (fqn field) s = true).
Proof.
  unfold meta_field_result.
  rewrite elem_of_sort, elem_of_push_back_selected.
  apply exist_proper. intros ps. apply and_iff_compat_l.
  rewrite <-existsb_field_synopses, Bool.eqb_true_iff.
  destruct (is_negated o), (existsb _ _); simpl; intuition congruence.
Qed.

Lemma elem_of_lookup_meta_type st x (d : data) id :
  id ∈ lookup_meta_type st x d ↔
  ∃ ps field syn,
    synopses st !! id = Some ps ∧ (field, syn) ∈ field_synopses_ ps
    ∧ evaluate (data_of_string (layout_name field)) (op x) d = true.
Proof.
  unfold lookup_meta_type.
  rewrite elem_of_sort, elem_of_push_back_selected.
  apply exist_proper. intros ps.
  rewrite (existsb_field_synopses
             (λ field, evaluate (data_of_string (layout_name field)) (op x) d)).
  split.
  - intros (? & field & syn & ? & ?). by exists field, syn.
  - intros (field & syn & ? & ? & ?). split; [done|]. by exists field, syn.
Qed.

(** *** The combinators as folds over the results of the children *)

Lemma elem_of_sorted_union xs ys id :
  id ∈ sorted_union xs ys ↔ id ∈ xs ∨ id ∈ ys.
Proof.
  unfold sorted_union. by rewrite elem_of_sort, elem_of_remove_dups, elem_of_app.
Qed.

Lemma sorted_union_strictly_ascending xs ys :
  strictly_ascending (sorted_union xs ys).
Proof. apply sort_strictly_ascending, NoDup_remove_dups. Qed.

Lemma inplace_unify_sorted_union xs ys :
  strictly_ascending xs → strictly_ascending ys →
  inplace_unify xs ys = sorted_union xs ys.
Proof.
  intros Hxs Hys. apply strictly_ascending_ext.
  - by apply inplace_unify_strictly_ascending.
  - apply sorted_union_strictly_ascending.
  - intros id. by rewrite elem_of_inplace_unify, elem_of_sorted_union.
Qed.

Lemma sorted_union_absorb st xs ys :
  well_formed_result st xs → well_formed_result st ys →
  length ys = size (synopses st) →
  sorted_union xs ys = ys ∧ sorted_union ys xs = ys.
Proof.
  intros [_ Hkx] [Hys Hky] Hlen.
  pose proof (full_result_all_partitions st ys (conj Hys Hky) Hlen) as Hall.
  assert (∀ id, id ∈ xs → id ∈ ys) as Hsub.
  { intros id Hid. rewrite Hall. by apply elem_of_all_partitions, Hkx. }
  split; (apply strictly_ascending_ext;
    [apply sorted_union_strictly_ascending|done|]);
    intros id; rewrite elem_of_sorted_union; intuition auto.
Qed.

Lemma sorted_union_nil_l xs :
  strictly_ascending xs → sorted_union [] xs = xs.
Proof.
  intros Hxs. apply strictly_ascending_ext;
    [apply sorted_union_strictly_ascending|done|].
  intros id. rewrite elem_of_sorted_union. split; [|by right].
  intros [?%elem_of_nil|?]; done.
Qed.

Lemma disjunction_loop_fold assertions st (x : list expression)
    (rs : list result_type) acc :
  children_return assertions st x rs → well_formed_result st acc →
  ∃ l, disjunction_loop assertions st (lookup assertions st) x acc
       = (l, Returned (disjunction_fold (size (synopses st)) rs acc)).
Proof.
  intros Hx. revert acc.
  induction Hx as [|e r x rs [l1 He] Hx IH]; intros acc Hacc; simpl.
  - by eexists.
  - pose proof (lookup_wf _ _ _ _ _ He) as Hr.
    rewrite He. simpl. rewrite VAST_ASSERT_sorted by apply Hr. simpl.
    case_bool_decide; [by eexists|].
    pose proof (inplace_unify_wf st acc r Hacc Hr) as Hwf.
    rewrite VAST_ASSERT_sorted by apply Hwf. simpl.
    destruct (IH _ Hwf) as [l2 ->].
    rewrite inplace_unify_sorted_union by (apply Hacc || apply Hr).
    by eexists.
Qed.

Lemma conjunction_fold_nil (rs : list result_type) : conjunction_fold rs [] = [].
Proof.
  induction rs as [|r rs IH]; simpl; [done|].
  case_bool_decide; [done|]. by destruct r.
Qed.

Lemma conjunction_loop_fold assertions st (x : list expression)
    (rs : list result_type) acc :
  children_return assertions st x rs → well_formed_result st acc →
  ∃ l, conjunction_loop assertions (lookup assertions st) x acc
       = (l, Returned (conjunction_fold rs acc)).
Proof.
  intros Hx. revert acc.
  induction Hx as [|e r x rs [l1 He] Hx IH]; intros acc Hacc; simpl.
  - by eexists.
  - rewrite He. simpl. case_bool_decide as Hr; [subst r; by eexists|].
    pose proof (inplace_intersect_wf st acc r Hacc) as Hwf.
    rewrite VAST_ASSERT_sorted by apply Hwf. simpl.
    destruct (IH _ Hwf) as [l2 ->]. by eexists.
Qed.

(** ** The claims *)

(** C1: for every state and every predicate whose left-hand side selects
    fields (a field extractor or a type extractor), a partition is in the
    vector [lookup] returns if and only if one of its selected fields is
    accepted: by its own synopsis if it has one, else by the synopsis
    of its type without attributes if there is one, else without
    condition; a synopsis accepts by answering [Some true] or [None], and
    a field that is rejected does not keep a later field of the same
    partition from being accepted. *)
Theorem lookup_selects_accepted_partitions assertions st x
    (matches : qualified_record_field → Prop) (d : data) l r id :
  selects_fields (lhs x) matches → rhs x = data_operand d →
  lookup assertions st (predicate_expr x) = (l, Returned r) →
  id ∈ r ↔ has_accepted_field st id matches (op x) d.
Proof.
  intros Hsel Hrhs. rewrite lookup_predicate_expr.
  inversion Hsel as [name Hl|t Hl]; subst matches; symmetry in Hl.
  - rewrite (lookup_field_extractor _ _ _ name d Hl Hrhs). intros [= <- <-].
    by rewrite elem_of_search_result_accepted.
  - intros H.
    apply (lookup_type_extractor_Returned _ _ _ t d l r Hl Hrhs) in H as [_ ->].
    apply elem_of_type_extractor_result.
Qed.

(** C2: for every state and every expression of a supported shape,
    [lookup] returns, and the vector it returns is strictly ascending,
    that is, sorted in ascending order and free of duplicates. *)
Theorem lookup_strictly_ascending assertions st e :
  supported e = true →
  ∃ l r, lookup assertions st e = (l, Returned r)
         ∧ strictly_ascending r ∧ Sorted N.le r ∧ NoDup r.
Proof.
  intros Hs. destruct (lookup_returns assertions st e Hs) as (l & r & Hr).
  exists l, r. destruct (lookup_wf _ _ _ _ _ Hr) as [Hasc _].
  split_and!; [done..| |by apply strictly_ascending_NoDup].
  by apply StronglySorted_Sorted, strictly_ascending_weaken.
Qed.

(** C3: for every state and every expression [e], [lookup] on the
    negation of [e] returns exactly [all_partitions()], the sorted vector
    of every partition identifier of the state, whatever [e] is; so it
    contains every partition that a lookup of [e] leaves out. *)
Theorem lookup_negation_all_partitions assertions st e :
  lookup assertions st (negation e) = ([], Returned (all_partitions st []))
  ∧ strictly_ascending (all_partitions st [])
  ∧ (∀ id, id ∈ all_partitions st [] ↔ is_Some (synopses st !! id))
  ∧ (∀ l r id, lookup assertions st e = (l, Returned r) →
               is_Some (synopses st !! id) → id ∉ r →
               id ∈ all_partitions st []).
Proof.
  split_and!.
  - apply lookup_negation.
  - apply all_partitions_strictly_ascending.
  - apply elem_of_all_partitions.
  - intros l r id _ Hid _. by apply elem_of_all_partitions.
Qed.

(** C9: every partition identifier in a vector that [lookup] returns is
    a key of [synopses]; when the state is the outcome of a history of
    merges and erasures, the identifier was merged and not erased
    afterwards. *)
Theorem lookup_returns_keys assertions st e l r id :
  lookup assertions st e = (l, Returned r) → id ∈ r →
  is_Some (synopses st !! id)
  ∧ ∀ history, st = state_after history → merged_and_kept history id.
Proof.
  intros Hr Hid. destruct (lookup_wf _ _ _ _ _ Hr) as [_ Hkeys].
  split; [by apply Hkeys|].
  intros history ->. by apply state_after_key, Hkeys.
Qed.

(** C6, as the code has it: the type extractor branch tells the two
    matching rules apart by whether the query type [t] is the name-only
    type [none_type], not by whether [t] has a name. With [none_type], a
    field matches exactly when the name of its type is the name of [t],
    and that name is not empty whenever assertions are checked; with any
    other type, a field matches exactly when its type equals [t] and has
    no name; when the name of [t] is ["timestamp"], the fields whose type
    has the attribute ["timestamp"] match as well. The partitions
    returned are those with a matching field that is accepted. *)
Theorem type_extractor_matching_rule assertions st x (t : type) (d : data)
    l r id :
  lhs x = type_extractor t → rhs x = data_operand d →
  lookup assertions st (predicate_expr x) = (l, Returned r) →
  (assertions = true → holds_none_type t = true → type_name t ≠ "")
  ∧ (id ∈ r ↔
     ∃ ps field syn,
       synopses st !! id = Some ps
       ∧ (field, syn) ∈ field_synopses_ ps
       ∧ field_accepted ps field syn (op x) d
       ∧ ((holds_none_type t = true
           ∧ type_name (field_type field) = type_name t)
          ∨ (holds_none_type t = false
             ∧ type_equal (field_type field) t = true
             ∧ type_name (field_type field) = "")
          ∨ (type_name t = "timestamp"
             ∧ has_attribute (field_type field) "timestamp" = true))).
Proof.
  intros Hl Hrhs. rewrite lookup_predicate_expr. intros H. split.
  - intros -> Hnone Hname.
    rewrite (lookup_type_extractor _ _ _ t d Hl Hrhs), Hnone, Hname in H.
    done.
  - apply (lookup_type_extractor_Returned _ _ _ t d l r Hl Hrhs) in H as [_ ->].
    rewrite elem_of_type_extractor_result.
    unfold has_accepted_field, type_extractor_selects.
    split; intros (ps & field & syn & H); exists ps, field, syn;
      destruct (holds_none_type t); intuition congruence.
Qed.

(** C7: for a predicate whose left-hand side is the [#field] meta
    extractor, [lookup] returns the empty vector and logs a warning when
    the right-hand side is not a string; when it is the string [s], the
    sorted vector returned contains a partition exactly when "the
    operator is not negated" and "some field of the partition has a
    fully qualified name ending in [s]" are both true or both false. *)
Theorem lookup_meta_field_kind assertions st x (d : data) :
  lhs x = meta_extractor kind_field → rhs x = data_operand d →
  match get_if_string d with
  | None =>
      lookup assertions st (predicate_expr x)
        = ([warn_field_meta_query], Returned [])
  | Some s =>
      ∃ r, lookup assertions st (predicate_expr x) = ([], Returned r)
           ∧ strictly_ascending r
           ∧ ∀ id, id ∈ r ↔
               ∃ ps, synopses st !! id = Some ps
                     ∧ (is_negated (op x) = false ↔
                        ∃ field syn, (field, syn) ∈ field_synopses_ ps
                                     ∧ ends_with (fqn field) s = true)
  end.
Proof.
  intros Hl Hrhs.
  rewrite lookup_predicate_expr, (lookup_meta_field_extractor _ _ _ d Hl Hrhs).
  destruct (get_if_string d) as [s|] eqn:Hs.
  - exists (meta_field_result st (op x) s). split_and!.
    + by apply lookup_meta_field_string.
    + apply sort_strictly_ascending, NoDup_push_back_selected.
    + apply elem_of_meta_field_result.
  - unfold lookup_meta_field. by rewrite Hs.
Qed.

(** C10: a partition whose [field_synopses_] is empty is in no vector
    that [lookup] returns for a predicate with a field extractor, a type
    extractor or the [#type] meta extractor on the left, whatever the
    operator; for the [#field] meta extractor with a string on the right
    it is in the vector exactly when the operator is negated. *)
Theorem lookup_partition_without_fields assertions st x (d : data) id ps l r :
  synopses st !! id = Some ps → field_synopses_ ps = [] →
  rhs x = data_operand d →
  lookup assertions st (predicate_expr x) = (l, Returned r) →
  match lhs x with
  | field_extractor _ | type_extractor _ | meta_extractor kind_type => id ∉ r
  | meta_extractor kind_field =>
      ∀ s, get_if_string d = Some s → (id ∈ r ↔ is_negated (op x) = true)
  | data_extractor | data_operand _ => True
  end.
Proof.
  intros Hps Hempty Hrhs. rewrite lookup_predicate_expr.
  assert (∀ m, ¬ has_accepted_field st id m (op x) d) as Hnone.
  { intros m (ps' & field & syn & Hps' & Hin & _).
    rewrite Hps in Hps'. injection Hps' as <-.
    rewrite Hempty in Hin. by apply elem_of_nil in Hin. }
  destruct (lhs x) as [[]|name|t| |] eqn:Hl; [| | | |done..].
  - rewrite (lookup_meta_type_extractor _ _ _ d Hl Hrhs). intros [= <- <-].
    intros (ps' & field & syn & Hps' & Hin & _)%elem_of_lookup_meta_type.
    rewrite Hps in Hps'. injection Hps' as <-.
    rewrite Hempty in Hin. by apply elem_of_nil in Hin.
  - rewrite (lookup_meta_field_extractor _ _ _ d Hl Hrhs). intros H s Hs.
    rewrite (lookup_meta_field_string _ _ _ s Hs) in H. injection H as <- <-.
    rewrite elem_of_meta_field_result. split.
    + intros (ps' & Hps' & Hiff). rewrite Hps in Hps'. injection Hps' as <-.
      destruct (is_negated (op x)); [done|].
      destruct Hiff as [(field & syn & Hin & _) _]; [done|].
      rewrite Hempty in Hin. by apply elem_of_nil in Hin.
    + intros Hneg. exists ps. split; [done|]. rewrite Hneg. split; [done|].
      intros (field & syn & Hin & _).
      rewrite Hempty in Hin. by apply elem_of_nil in Hin.
  - rewrite (lookup_field_extractor _ _ _ name d Hl Hrhs). intros [= <- <-].
    rewrite elem_of_search_result_accepted. apply Hnone.
  - intros H.
    apply (lookup_type_extractor_Returned _ _ _ t d l r Hl Hrhs) in H as [_ ->].
    rewrite elem_of_type_extractor_result. apply Hnone.
Qed.

(** C4: when both children return, the lookup of their disjunction
    returns the sorted, duplicate-free union of their results. In
    general the disjunction is the fold from the left over the results
    of its children, starting from the empty vector, in which a result
    with as many elements as [synopses] has entries is returned at once
    and any other result is united with the accumulator. *)
Theorem lookup_disjunction_union assertions st e1 e2 l1 r1 l2 r2 :
  lookup assertions st e1 = (l1, Returned r1) →
  lookup assertions st e2 = (l2, Returned r2) →
  (∃ l, lookup assertions st (disjunction [e1; e2])
        = (l, Returned (sorted_union r1 r2)))
  ∧ (∀ x : list expression, lookup assertions st (disjunction (e1 :: x)) =
          if bool_decide (length r1 = size (synopses st))
          then (l1, Returned r1)
          else
            let '(l, r) :=
              disjunction_loop assertions st (lookup assertions st) x r1 in
            (l1 ++ l, r))
  ∧ (∀ (x : list expression) rs, children_return assertions st x rs →
       ∃ l, lookup assertions st (disjunction x)
            = (l, Returned (disjunction_fold (size (synopses st)) rs []))).
Proof.
  intros H1 H2.
  pose proof (lookup_wf _ _ _ _ _ H1) as Hr1.
  pose proof (lookup_wf _ _ _ _ _ H2) as Hr2.
  assert (∀ (x : list expression) rs, children_return assertions st x rs →
       ∃ l, lookup assertions st (disjunction x)
            = (l, Returned (disjunction_fold (size (synopses st)) rs [])))
    as Hfold.
  { intros x rs Hx. rewrite lookup_disjunction, VAST_ASSERT_holds, bind_ret_l.
    apply disjunction_loop_fold; [done|apply well_formed_result_nil]. }
  split_and!; [|clear Hfold|done].
  - destruct (Hfold [e1; e2] [r1; r2]) as [l ->].
    { repeat constructor; by eexists. }
    exists l. do 2 f_equal. simpl.
    case_bool_decide as Hlen1.
    + symmetry. by eapply sorted_union_absorb.
    + rewrite sorted_union_nil_l by apply Hr1.
      case_bool_decide as Hlen2; [|done].
      symmetry. by eapply sorted_union_absorb.
  - intros x. rewrite lookup_disjunction, VAST_ASSERT_holds, bind_ret_l.
    rewrite disjunction_loop_cons, H1. simpl.
    rewrite VAST_ASSERT_sorted by apply Hr1. simpl.
    case_bool_decide; [simpl; by rewrite app_nil_r|].
    rewrite inplace_unify_nil_l by apply Hr1.
    rewrite VAST_ASSERT_sorted by apply Hr1. simpl.
    by destruct (disjunction_loop _ _ _ _ _).
Qed.

(** C5: when both children return, the lookup of their conjunction
    returns a vector whose elements are in the results of both children
    (and it leaves out none of their common elements). In general the
    conjunction starts from the result of its first child and folds over
    the results of the other children, where an empty result makes the
    result empty at once and any other result is intersected with the
    accumulator. *)
Theorem lookup_conjunction_intersection assertions st e1 e2 l1 r1 l2 r2 :
  lookup assertions st e1 = (l1, Returned r1) →
  lookup assertions st e2 = (l2, Returned r2) →
  (∃ l r, lookup assertions st (conjunction [e1; e2]) = (l, Returned r)
          ∧ (∀ id, id ∈ r → id ∈ r1 ∧ id ∈ r2)
          ∧ (∀ id, id ∈ r1 → id ∈ r2 → id ∈ r))
  ∧ (∀ x : list expression, r1 ≠ [] → r2 = [] →
          lookup assertions st (conjunction (e1 :: e2 :: x))
          = (l1 ++ l2, Returned []))
  ∧ (∀ (x : list expression) rs, children_return assertions st x rs →
       ∃ l, lookup assertions st (conjunction (e1 :: x))
            = (l, Returned (conjunction_fold rs r1))).
Proof.
  intros H1 H2.
  pose proof (lookup_wf _ _ _ _ _ H1) as Hr1.
  pose proof (lookup_wf _ _ _ _ _ H2) as Hr2.
  assert (∀ (x : list expression) rs, children_return assertions st x rs →
       ∃ l, lookup assertions st (conjunction (e1 :: x))
            = (l, Returned (conjunction_fold rs r1))) as Hfold.
  { intros x rs Hx.
    rewrite lookup_conjunction, !VAST_ASSERT_holds, !bind_ret_l, H1. simpl.
    case_bool_decide as Hempty; simpl.
    - subst r1. rewrite conjunction_fold_nil. by eexists.
    - destruct (conjunction_loop_fold assertions st x rs r1 Hx Hr1) as [l ->].
      by eexists. }
  split_and!; [|clear Hfold|done].
  - destruct (Hfold [e2] [r2]) as [l Hl].
    { repeat constructor; by eexists. }
    eexists l, _. split; [exact Hl|]. simpl.
    case_bool_decide as Hempty.
    + subst r2. split; [by intros id ?%elem_of_nil|done].
    + split.
      * intros id. apply elem_of_set_intersection.
      * intros id. apply set_intersection_complete; [apply Hr1|apply Hr2].
  - intros x Hne ->.
    rewrite lookup_conjunction, !VAST_ASSERT_holds, !bind_ret_l, H1. simpl.
    rewrite bool_decide_eq_false_2 by done. simpl.
    rewrite H2. simpl. by rewrite app_nil_r.
Qed.

(** C8, as the code has it: on the empty expression [lookup] stops at
    its entry assertion when assertions are checked; when they are not,
    it logs the error "received an empty expression" and returns
    [all_partitions()]. There is no error for the caller to receive:
    whatever [lookup] returns is a vector of keys in ascending order. A
    pair of operands without a dedicated overload is logged as a warning
    and answered with [all_partitions()]. The entry assertion is not the
    only one that can stop [lookup] when assertions are checked: a
    conjunction without children and a name-only type extractor without
    a name do so too. *)
Theorem lookup_empty_expression st :
  lookup true st none_t = ([], AssertionFailed)
  ∧ lookup false st none_t
    = ([error_empty_expression], Returned (all_partitions st []))
  ∧ (∀ assertions e l r,
       lookup assertions st e = (l, Returned r) → well_formed_result st r)
  ∧ (∀ assertions x,
       has_dedicated_overload x = false →
       lookup assertions st (predicate_expr x)
       = ([warn_cannot_process], Returned (all_partitions st [])))
  ∧ lookup true st (conjunction []) = ([], AssertionFailed)
  ∧ (∀ x (t : type) (d : data),
       lhs x = type_extractor t → rhs x = data_operand d →
       holds_none_type t = true → type_name t = "" →
       lookup true st (predicate_expr x) = ([], AssertionFailed)).
Proof.
  split_and!; [done|done| | |done|].
  - intros assertions e l r. apply lookup_wf.
  - intros assertions x Hx. rewrite lookup_predicate_expr.
    by apply lookup_generic_overload.
  - intros x t d Hl Hr Hnone Hname.
    rewrite lookup_predicate_expr, (lookup_type_extractor _ _ _ t d Hl Hr).
    by rewrite Hnone, Hname.
Qed.

(** ** Further properties of [lookup] *)

Lemma selected_iff st (f g : partition_synopsis → bool) id :
  (∀ ps, synopses st !! id = Some ps → f ps = g ps) →
  selected st f id ↔ selected st g id.
Proof.
  intros Hfg. unfold selected.
  split; intros (ps & Hps & Hf); exists ps; (split; [done|]);
    [rewrite <-Hfg|rewrite Hfg]; done.
Qed.

Lemma selected_key st (f : partition_synopsis → bool) id :
  selected st f id → is_Some (synopses st !! id).
Proof. intros (ps & Hps & _). eauto. Qed.

Lemma selected_all st id :
  selected st (λ _, true) id ↔ id ∈ all_partitions st [].
Proof.
  rewrite elem_of_all_partitions. unfold selected. split.
  - intros (ps & Hps & _). eauto.
  - intros [ps Hps]. eauto.
Qed.

Lemma lookup_predicate_candidate assertions st x l r id :
  lookup_predicate assertions st x = (l, Returned r) →
  id ∈ r ↔ selected st (predicate_candidate x) id.
Proof.
  unfold selected, predicate_candidate.
  destruct (lhs x) as [[]|name|t| |dl] eqn:Hl;
    destruct (rhs x) as [k'|f'|t'| |d] eqn:Hr;
    try (rewrite lookup_generic_overload
           by (unfold has_dedicated_overload; by rewrite Hl, ?Hr);
         intros [= <- <-]; apply (iff_sym (selected_all st id))).
  - rewrite (lookup_meta_type_extractor _ _ _ d Hl Hr). intros [= <- <-].
    unfold lookup_meta_type.
    by rewrite elem_of_sort, elem_of_push_back_selected.
  - rewrite (lookup_meta_field_extractor _ _ _ d Hl Hr).
    unfold lookup_meta_field. destruct (get_if_string d) as [s|].
    + intros [= <- <-]. by rewrite elem_of_sort, elem_of_push_back_selected.
    + intros [= <- <-]. split; [by intros ?%elem_of_nil|].
      by intros (? & _ & ?).
  - rewrite (lookup_field_extractor _ _ _ name d Hl Hr). intros [= <- <-].
    apply elem_of_search_result.
  - intros H.
    apply (lookup_type_extractor_Returned _ _ _ t d l r Hl Hr) in H as [_ ->].
    unfold type_extractor_result.
    destruct (String.eqb (type_name t) "timestamp"); simpl.
    + rewrite elem_of_inplace_unify, !elem_of_search_result. split.
      * intros [(ps & ? & Hs)|(ps & ? & Hs)]; exists ps;
          rewrite Hs, ?orb_true_r; done.
      * intros (ps & ? & [?|?]%orb_true_iff); [left|right]; by exists ps.
    + rewrite elem_of_search_result.
      apply exist_proper. intros ps. by rewrite orb_false_r.
Qed.

Lemma elem_of_inplace_intersect st xs ys id :
  well_formed_result st xs → well_formed_result st ys →
  id ∈ inplace_intersect xs ys ↔ id ∈ xs ∧ id ∈ ys.
Proof.
  intros [Hxs _] [Hys _]. split; [apply elem_of_set_intersection|].
  intros [? ?]. by apply set_intersection_complete.
Qed.

Lemma conjunction_loop_candidate assertions st (x : list expression)
    (g : partition_synopsis → bool) acc l r :
  Forall (λ e, ∀ l r, lookup assertions st e = (l, Returned r) →
                      ∀ id, id ∈ r ↔ selected st (candidate e) id) x →
  well_formed_result st acc →
  (∀ id, id ∈ acc ↔ selected st g id) →
  conjunction_loop assertions (lookup assertions st) x acc = (l, Returned r) →
  ∀ id, id ∈ r ↔
    selected st (λ ps, g ps && forallb (λ e, candidate e ps) x) id.
Proof.
  intros Hx. revert g acc l.
  induction Hx as [|e x He Hx IH]; intros g acc l Hacc Hg.
  - intros [= <- <-] id. rewrite Hg. apply selected_iff.
    intros ps _. simpl. by rewrite andb_true_r.
  - rewrite conjunction_loop_cons.
    intros (l1 & xs & l2 & Hxs & Hk & _)%bind_Returned.
    pose proof (lookup_wf _ _ _ _ _ Hxs) as Hwf.
    specialize (He _ _ Hxs).
    case_bool_decide as Hempty.
    + injection Hk as <- <-. subst xs. intros id.
      split; [by intros ?%elem_of_nil|].
      intros (ps & Hps & Ht). simpl in Ht.
      apply andb_true_iff in Ht as [_ [Ht _]%andb_true_iff].
      apply (He id). by exists ps.
    + apply bind_Returned in Hk as (? & ? & l3 & _ & Hk & _).
      assert (∀ id, id ∈ inplace_intersect acc xs ↔
                    selected st (λ ps, g ps && candidate e ps) id) as Hinv.
      { intros id. rewrite (elem_of_inplace_intersect st) by done.
        rewrite Hg, He. unfold selected. split.
        - intros [(ps & Hps & Hg1) (ps' & Hps' & He1)].
          rewrite Hps in Hps'. injection Hps' as <-.
          exists ps. by rewrite Hg1, He1.
        - intros (ps & Hps & [? ?]%andb_true_iff). split; by exists ps. }
      intros id.
      rewrite (IH _ _ _ (inplace_intersect_wf st acc xs Hacc) Hinv Hk).
      apply selected_iff. intros ps _. simpl. by rewrite andb_assoc.
Qed.

Lemma disjunction_loop_candidate assertions st (x : list expression)
    (g : partition_synopsis → bool) acc l r :
  Forall (λ e, ∀ l r, lookup assertions st e = (l, Returned r) →
                      ∀ id, id ∈ r ↔ selected st (candidate e) id) x →
  well_formed_result st acc →
  (∀ id, id ∈ acc ↔ selected st g id) →
  disjunction_loop assertions st (lookup assertions st) x acc
    = (l, Returned r) →
  ∀ id, id ∈ r ↔
    selected st (λ ps, g ps || existsb (λ e, candidate e ps) x) id.
Proof.
  intros Hx. revert g acc l.
  induction Hx as [|e x He Hx IH]; intros g acc l Hacc Hg.
  - intros [= <- <-] id. rewrite Hg. apply selected_iff.
    intros ps _. simpl. by rewrite orb_false_r.
  - rewrite disjunction_loop_cons.
    intros (l1 & xs & l2 & Hxs & Hk & _)%bind_Returned.
    pose proof (lookup_wf _ _ _ _ _ Hxs) as Hwf.
    specialize (He _ _ Hxs).
    apply bind_Returned in Hk as (? & ? & l3 & _ & Hk & _).
    case_bool_decide as Hfull.
    + injection Hk as <- <-. intros id.
      pose proof (full_result_all_partitions st xs Hwf Hfull) as Hall.
      split.
      * intros Hid. pose proof Hid as (ps & Hps & He1)%He.
        exists ps. split; [done|]. simpl. by rewrite He1, orb_true_r.
      * intros [ps Hps]%selected_key. rewrite Hall.
        apply elem_of_all_partitions. eauto.
    + apply bind_Returned in Hk as (? & ? & l4 & _ & Hk & _).
      assert (∀ id, id ∈ inplace_unify acc xs ↔
                    selected st (λ ps, g ps || candidate e ps) id) as Hinv.
      { intros id. rewrite elem_of_inplace_unify, Hg, He.
        unfold selected. split.
        - intros [(ps & Hps & Ht)|(ps & Hps & Ht)]; exists ps;
            rewrite Ht, ?orb_true_r; done.
        - intros (ps & Hps & [?|?]%orb_true_iff); [left|right]; by exists ps. }
      intros id.
      rewrite (IH _ _ _ (inplace_unify_wf st acc xs Hacc Hwf) Hinv Hk).
      apply selected_iff. intros ps _. simpl. by rewrite orb_assoc.
Qed.

(** X1: whatever the expression, a partition is in the vector [lookup]
    returns exactly when it is a partition of the state whose own
    synopsis passes the expression: the loops over all partitions, the
    sorting and the in-place set operations with their short-circuits
    together decide each partition on its own. *)
Theorem lookup_decides_each_partition assertions st e l r :
  lookup assertions st e = (l, Returned r) →
  ∀ id, id ∈ r ↔ ∃ ps, synopses st !! id = Some ps ∧ candidate e ps = true.
Proof.
  change (lookup assertions st e = (l, Returned r) →
          ∀ id, id ∈ r ↔ selected st (candidate e) id).
  revert l r. induction e as [|x IH|x IH|e IH|p] using expression_ind;
    intros l r.
  - rewrite lookup_none_t.
    intros (? & ? & ? & _ & Hk & _)%bind_Returned.
    apply bind_Returned in Hk as (? & ? & ? & _ & Hk & _).
    apply bind_Returned in Hk as (? & ? & ? & _ & Hk & _).
    injection Hk as <- <-. intros id. symmetry. apply selected_all.
  - rewrite lookup_conjunction.
    intros (? & ? & ? & _ & Hk & _)%bind_Returned.
    apply bind_Returned in Hk as (? & ? & ? & _ & Hk & _).
    destruct x as [|e x]; [done|].
    apply Forall_cons in IH as [He Hx].
    apply bind_Returned in Hk as (? & r1 & ? & Hr1 & Hk & _).
    pose proof (lookup_wf _ _ _ _ _ Hr1) as Hwf.
    specialize (He _ _ Hr1).
    case_bool_decide as Hempty; simpl in Hk.
    + injection Hk as <- <-. subst r1. intros id.
      split; [by intros ?%elem_of_nil|].
      intros (ps & Hps & [Ht _]%andb_true_iff).
      apply (He id). by exists ps.
    + by eapply conjunction_loop_candidate.
  - rewrite lookup_disjunction.
    intros (? & ? & ? & _ & Hk & _)%bind_Returned.
    assert (∀ id, id ∈ @nil uuid ↔ selected st (λ _, false) id) as Hinv.
    { intros id. split; [by intros ?%elem_of_nil|]. by intros (? & _ & ?). }
    apply (disjunction_loop_candidate assertions st x (λ _, false) []
             _ _ IH (well_formed_result_nil st) Hinv Hk).
  - rewrite lookup_negation. intros [= <- <-] id. symmetry.
    apply selected_all.
  - rewrite lookup_predicate_expr. intros H id.
    by eapply lookup_predicate_candidate.
Qed.

Lemma forallb_Permutation {A} (f : A → bool) (x y : list A) :
  x ≡ₚ y → forallb f x = forallb f y.
Proof.
  induction 1 as [|a x y _ IH|a b x|x y z _ IH1 _ IH2]; simpl.
  - done.
  - by rewrite IH.
  - by destruct (f a), (f b).
  - by rewrite IH1.
Qed.

Lemma existsb_Permutation {A} (f : A → bool) (x y : list A) :
  x ≡ₚ y → existsb f x = existsb f y.
Proof.
  induction 1 as [|a x y _ IH|a b x|x y z _ IH1 _ IH2]; simpl.
  - done.
  - by rewrite IH.
  - by destruct (f a), (f b).
  - by rewrite IH1.
Qed.

(** X2: merging a partition changes a lookup only at that partition.
    After [merge(id', ps')] the vector holds [id'] exactly when the
    synopsis [ps'] passes the expression, whatever was stored for [id']
    before, and holds any other partition exactly when it did before. *)
Theorem lookup_after_merge assertions st e id' ps' l r l' r' :
  lookup assertions st e = (l, Returned r) →
  lookup assertions (merge st id' ps') e = (l', Returned r') →
  ∀ id, id ∈ r' ↔ (id = id' ∧ candidate e ps' = true) ∨ (id ≠ id' ∧ id ∈ r).
Proof.
  intros Hr Hr' id.
  rewrite (lookup_decides_each_partition _ _ _ _ _ Hr),
          (lookup_decides_each_partition _ _ _ _ _ Hr').
  simpl. destruct (decide (id = id')) as [->|Hne].
  - rewrite lookup_insert_eq. split.
    + intros (ps & [= <-] & ?). by left.
    + intros [[_ ?]|[? _]]; [by exists ps'|done].
  - rewrite lookup_insert_ne by done. split.
    + intros ?. by right.
    + by intros [[? _]|[_ ?]].
Qed.

(** X3: erasing a partition removes it from every lookup and changes
    nothing else: after [erase(id')] the vector holds the partitions it
    held before, except [id']. *)
Theorem lookup_after_erase assertions st e id' l r l' r' :
  lookup assertions st e = (l, Returned r) →
  lookup assertions (erase st id') e = (l', Returned r') →
  ∀ id, id ∈ r' ↔ id ≠ id' ∧ id ∈ r.
Proof.
  intros Hr Hr' id.
  rewrite (lookup_decides_each_partition _ _ _ _ _ Hr),
          (lookup_decides_each_partition _ _ _ _ _ Hr').
  simpl. destruct (decide (id = id')) as [->|Hne].
  - rewrite lookup_delete_eq. split; [by intros (? & ? & _)|by intros [? _]].
  - rewrite lookup_delete_ne by done. split; [done|by intros [_ ?]].
Qed.

(** X4: two expressions that no synopsis of the state tells apart get
    the same vector, element for element and in the same order. *)
Theorem lookup_extensional assertions st e1 e2 l1 r1 l2 r2 :
  lookup assertions st e1 = (l1, Returned r1) →
  lookup assertions st e2 = (l2, Returned r2) →
  (∀ id ps, synopses st !! id = Some ps → candidate e1 ps = candidate e2 ps) →
  r1 = r2.
Proof.
  intros H1 H2 Hsame.
  apply strictly_ascending_ext;
    [by eapply lookup_wf|by eapply lookup_wf|].
  intros id.
  rewrite (lookup_decides_each_partition _ _ _ _ _ H1),
          (lookup_decides_each_partition _ _ _ _ _ H2).
  split; intros (ps & Hps & Hc); exists ps; (split; [done|]);
    [rewrite <-(Hsame id ps Hps)|rewrite (Hsame id ps Hps)]; done.
Qed.

(** X5: the order of the children of a conjunction or of a disjunction
    does not change the vector returned, although it changes which
    children the short-circuits skip. *)
Theorem lookup_children_order assertions st (x y : list expression)
    l r l' r' :
  x ≡ₚ y →
  (lookup assertions st (conjunction x) = (l, Returned r) →
   lookup assertions st (conjunction y) = (l', Returned r') → r = r')
  ∧ (lookup assertions st (disjunction x) = (l, Returned r) →
     lookup assertions st (disjunction y) = (l', Returned r') → r = r').
Proof.
  intros Hxy. split; intros H1 H2;
    apply (lookup_extensional _ _ _ _ _ _ _ _ H1 H2); intros id ps _; simpl.
  - by apply forallb_Permutation.
  - by apply existsb_Permutation.
Qed.


(** X7: a conjunction or a disjunction of a single child comes to what
    the child comes to, log included. *)
Theorem lookup_single_child assertions st e l r :
  lookup assertions st e = (l, Returned r) →
  lookup assertions st (conjunction [e]) = (l, Returned r)
  ∧ lookup assertions st (disjunction [e]) = (l, Returned r).
Proof.
  intros Hr. pose proof (lookup_wf _ _ _ _ _ Hr) as Hwf. split.
  - rewrite lookup_conjunction, !VAST_ASSERT_holds, !bind_ret_l, Hr. simpl.
    destruct (negb _); simpl; by rewrite app_nil_r.
  - rewrite lookup_disjunction, VAST_ASSERT_holds, bind_ret_l.
    rewrite disjunction_loop_cons, Hr. simpl.
    rewrite VAST_ASSERT_sorted by apply Hwf. simpl.
    case_bool_decide; simpl; [by rewrite app_nil_r|].
    rewrite inplace_unify_nil_l by apply Hwf.
    rewrite VAST_ASSERT_sorted by apply Hwf. simpl. by rewrite app_nil_r.
Qed.

(** X8: [lookup] never returns more identifiers than the state has
    partitions, and a vector with that many identifiers is the vector
    of all partitions, which is what the short-circuit of the
    disjunction relies on. *)
Theorem lookup_result_size assertions st e l r :
  lookup assertions st e = (l, Returned r) →
  (length r ≤ size (synopses st))%nat
  ∧ (length r = size (synopses st) ↔ r = all_partitions st []).
Proof.
  intros Hr. pose proof (lookup_wf _ _ _ _ _ Hr) as Hwf. split.
  - rewrite <-length_all_partitions. apply submseteq_length.
    apply NoDup_submseteq; [apply strictly_ascending_NoDup, Hwf|].
    intros id Hid. by apply elem_of_all_partitions, Hwf.
  - split; [by apply full_result_all_partitions|].
    intros ->. apply length_all_partitions.
Qed.

(** X9: on an index without partitions every lookup that returns,
    negations and unprocessable predicates included, returns the empty
    vector. *)
Theorem lookup_empty_index assertions st e l r :
  synopses st = ∅ →
  lookup assertions st e = (l, Returned r) → r = [].
Proof.
  intros Hempty Hr. destruct (lookup_wf _ _ _ _ _ Hr) as [_ Hkeys].
  destruct r as [|id r]; [done|].
  destruct (Hkeys id) as [ps Hps]; [by left|].
  by rewrite Hempty, lookup_empty in Hps.
Qed.

(** X10: for a predicate with the [#type] meta extractor on the left,
    [lookup] logs nothing and returns, in ascending order, exactly the
    partitions with a field whose layout name, taken as a string,
    stands in the relation [op] to the right-hand side. *)
Theorem lookup_meta_type_kind assertions st x (d : data) :
  lhs x = meta_extractor kind_type → rhs x = data_operand d →
  ∃ r, lookup assertions st (predicate_expr x) = ([], Returned r)
       ∧ strictly_ascending r
       ∧ ∀ id, id ∈ r ↔
           ∃ ps field syn,
             synopses st !! id = Some ps
             ∧ (field, syn) ∈ field_synopses_ ps
             ∧ evaluate (data_of_string (layout_name field)) (op x) d = true.
Proof.
  intros Hl Hr. exists (lookup_meta_type st x d). split_and!.
  - rewrite lookup_predicate_expr. by apply lookup_meta_type_extractor.
  - apply sort_strictly_ascending, NoDup_push_back_selected.
  - apply elem_of_lookup_meta_type.
Qed.

(** *** Builds with and without assertions *)

Lemma VAST_ASSERT_release assertions (c : bool) l (u : unit) :
  VAST_ASSERT assertions c = (l, Returned u) →
  VAST_ASSERT false c = (l, Returned u).
Proof. intros [-> _]%VAST_ASSERT_Returned. by destruct u. Qed.

Lemma lookup_predicate_release assertions st x l r :
  lookup_predicate assertions st x = (l, Returned r) →
  lookup_predicate false st x = (l, Returned r).
Proof.
  destruct (lhs x) as [[]|name|t| |dl] eqn:Hl;
    destruct (rhs x) as [k'|f'|t'| |d] eqn:Hr;
    try (rewrite !lookup_generic_overload
           by (unfold has_dedicated_overload; by rewrite Hl, ?Hr); done).
  - by rewrite !(lookup_meta_type_extractor _ _ _ d Hl Hr).
  - by rewrite !(lookup_meta_field_extractor _ _ _ d Hl Hr).
  - by rewrite !(lookup_field_extractor _ _ _ name d Hl Hr).
  - rewrite !(lookup_type_extractor _ _ _ t d Hl Hr). simpl.
    by destruct (_ && _).
Qed.

Lemma conjunction_loop_release assertions st (x : list expression) acc l r :
  Forall (λ e, ∀ l r, lookup assertions st e = (l, Returned r) →
                      lookup false st e = (l, Returned r)) x →
  conjunction_loop assertions (lookup assertions st) x acc = (l, Returned r) →
  conjunction_loop false (lookup false st) x acc = (l, Returned r).
Proof.
  intros Hx. revert acc l.
  induction Hx as [|e x He Hx IH]; intros acc l; [done|].
  rewrite !conjunction_loop_cons.
  intros (l1 & xs & l2 & Hxs & Hk & ->)%bind_Returned.
  apply (bind_Returned_intro _ _ _ _ _ _ (He _ _ Hxs)).
  case_bool_decide; [done|].
  apply bind_Returned in Hk as (la & [] & l3 & Ha & Hk & ->).
  apply (bind_Returned_intro _ _ _ _ _ _ (VAST_ASSERT_release _ _ _ _ Ha)).
  by apply IH.
Qed.

Lemma disjunction_loop_release assertions st (x : list expression) acc l r :
  Forall (λ e, ∀ l r, lookup assertions st e = (l, Returned r) →
                      lookup false st e = (l, Returned r)) x →
  disjunction_loop assertions st (lookup assertions st) x acc
    = (l, Returned r) →
  disjunction_loop false st (lookup false st) x acc = (l, Returned r).
Proof.
  intros Hx. revert acc l.
  induction Hx as [|e x He Hx IH]; intros acc l; [done|].
  rewrite !disjunction_loop_cons.
  intros (l1 & xs & l2 & Hxs & Hk & ->)%bind_Returned.
  apply (bind_Returned_intro _ _ _ _ _ _ (He _ _ Hxs)).
  apply bind_Returned in Hk as (la & [] & l3 & Ha & Hk & ->).
  apply (bind_Returned_intro _ _ _ _ _ _ (VAST_ASSERT_release _ _ _ _ Ha)).
  case_bool_decide; [done|].
  apply bind_Returned in Hk as (lb & [] & l4 & Hb & Hk & ->).
  apply (bind_Returned_intro _ _ _ _ _ _ (VAST_ASSERT_release _ _ _ _ Hb)).
  by apply IH.
Qed.

(** X11: assertions only ever stop a lookup. Whenever [lookup] returns
    in a build that checks assertions, it returns the same vector and
    writes the same log in a build that does not. *)
Theorem lookup_release_build assertions st e l r :
  lookup assertions st e = (l, Returned r) →
  lookup false st e = (l, Returned r).
Proof.
  revert l r. induction e as [|x IH|x IH|e IH|p] using expression_ind;
    intros l r.
  - rewrite !lookup_none_t.
    intros (la & [] & l1 & Ha & Hk & ->)%bind_Returned.
    apply (bind_Returned_intro _ _ _ _ _ _ (VAST_ASSERT_release _ _ _ _ Ha)).
    apply bind_Returned in Hk as (lb & [] & l2 & Hb & Hk & ->).
    apply (bind_Returned_intro _ _ _ _ _ _ Hb).
    apply bind_Returned in Hk as (lc & [] & l3 & Hc & Hk & ->).
    by apply (bind_Returned_intro _ _ _ _ _ _ (VAST_ASSERT_release _ _ _ _ Hc)).
  - rewrite !lookup_conjunction.
    intros (la & [] & l1 & Ha & Hk & ->)%bind_Returned.
    apply (bind_Returned_intro _ _ _ _ _ _ (VAST_ASSERT_release _ _ _ _ Ha)).
    apply bind_Returned in Hk as (lb & [] & l2 & Hb & Hk & ->).
    apply (bind_Returned_intro _ _ _ _ _ _ (VAST_ASSERT_release _ _ _ _ Hb)).
    destruct x as [|e x]; [done|].
    apply Forall_cons in IH as [He Hx].
    apply bind_Returned in Hk as (l3 & r1 & l4 & Hr1 & Hk & ->).
    apply (bind_Returned_intro _ _ _ _ _ _ (He _ _ Hr1)).
    destruct (negb (bool_decide (r1 = []))); [|done].
    by apply (conjunction_loop_release assertions).
  - rewrite !lookup_disjunction.
    intros (la & [] & l1 & Ha & Hk & ->)%bind_Returned.
    apply (bind_Returned_intro _ _ _ _ _ _ (VAST_ASSERT_release _ _ _ _ Ha)).
    by apply (disjunction_loop_release assertions).
  - by rewrite !lookup_negation.
  - rewrite !lookup_predicate_expr. apply lookup_predicate_release.
Qed.

(** X16: a conjunction returns no partition that one of its children,
    looked up on its own, leaves out, and a disjunction returns every
    partition that one of its children returns; this holds for any
    number of children and for a child in any position. *)
Theorem lookup_child_bounds assertions st (x : list expression) e le re :
  e ∈ x → lookup assertions st e = (le, Returned re) →
  (∀ l r, lookup assertions st (conjunction x) = (l, Returned r) →
          ∀ id, id ∈ r → id ∈ re)
  ∧ (∀ l r, lookup assertions st (disjunction x) = (l, Returned r) →
            ∀ id, id ∈ re → id ∈ r).
Proof.
  intros Hin He. split; intros l r Hr id;
    rewrite (lookup_decides_each_partition _ _ _ _ _ Hr),
            (lookup_decides_each_partition _ _ _ _ _ He);
    intros (ps & Hps & Hc); exists ps; (split; [done|]); simpl in *.
  - by apply (forallb_elem_of (λ e, candidate e ps) x e).
  - apply existsb_exists. exists e. split; [by apply list_elem_of_In|done].
Qed.

(** *** The log *)

Lemma bind_log {A B} (m : M A) (k : A → M B) (d : diagnostic) :
  d ∉ m.1 → (∀ a, d ∉ (k a).1) → d ∉ (bind m k).1.
Proof.
  destruct m as [l [a| |]]; simpl; intros Hm Hk; [|done..].
  specialize (Hk a). destruct (k a) as [l' r]. simpl in *.
  rewrite elem_of_app. by intros [?|?].
Qed.

Lemma VAST_ASSERT_log assertions (c : bool) (d : diagnostic) :
  d ∉ (VAST_ASSERT assertions c).1.
Proof.
  unfold VAST_ASSERT. destruct (_ && _); simpl; by intros ?%elem_of_nil.
Qed.

Lemma ret_log {A} (a : A) (d : diagnostic) : d ∉ (ret a).1.
Proof. by intros ?%elem_of_nil. Qed.

Lemma lookup_predicate_log assertions st x :
  error_empty_expression ∉ (lookup_predicate assertions st x).1.
Proof.
  destruct (lhs x) as [[]|name|t| |dl] eqn:Hl;
    destruct (rhs x) as [k'|f'|t'| |d] eqn:Hr;
    try (rewrite lookup_generic_overload
           by (unfold has_dedicated_overload; by rewrite Hl, ?Hr);
         simpl; by intros [=]%list_elem_of_singleton).
  - rewrite (lookup_meta_type_extractor _ _ _ d Hl Hr). apply ret_log.
  - rewrite (lookup_meta_field_extractor _ _ _ d Hl Hr).
    unfold lookup_meta_field. destruct (get_if_string d); simpl.
    + by intros ?%elem_of_nil.
    + by intros [=]%list_elem_of_singleton.
  - rewrite (lookup_field_extractor _ _ _ name d Hl Hr). apply ret_log.
  - rewrite (lookup_type_extractor _ _ _ t d Hl Hr).
    destruct (_ && _); simpl; by intros ?%elem_of_nil.
Qed.

(** X12: in a build that checks assertions the error "received an empty
    expression" is never written to the log, however the expression is
    nested and however the lookup ends: the entry assertion stops the
    lookup before the line that logs it. *)
Theorem lookup_never_logs_empty_expression st e :
  error_empty_expression ∉ (lookup true st e).1.
Proof.
  induction e as [|x IH|x IH|e IH|p] using expression_ind.
  - by intros ?%elem_of_nil.
  - rewrite lookup_conjunction.
    apply bind_log; [apply VAST_ASSERT_log|intros _].
    apply bind_log; [apply VAST_ASSERT_log|intros _].
    destruct x as [|e x]; [by intros ?%elem_of_nil|].
    apply Forall_cons in IH as [He Hx].
    apply bind_log; [done|intros r1].
    destruct (negb _); [|apply ret_log].
    generalize r1. clear r1 He.
    induction Hx as [|e' x He' Hx IHx]; intros acc; [apply ret_log|].
    rewrite conjunction_loop_cons.
    apply bind_log; [done|intros xs].
    case_bool_decide; [apply ret_log|].
    apply bind_log; [apply VAST_ASSERT_log|intros _]. apply IHx.
  - rewrite lookup_disjunction.
    apply bind_log; [apply VAST_ASSERT_log|intros _].
    generalize (@nil uuid).
    induction IH as [|e' x He' Hx IHx]; intros acc; [apply ret_log|].
    rewrite disjunction_loop_cons.
    apply bind_log; [done|intros xs].
    apply bind_log; [apply VAST_ASSERT_log|intros _].
    case_bool_decide; [apply ret_log|].
    apply bind_log; [apply VAST_ASSERT_log|intros _]. apply IHx.
  - rewrite lookup_negation. by intros ?%elem_of_nil.
  - rewrite lookup_predicate_expr. apply lookup_predicate_log.
Qed.

End Properties.

(** ** The rest of the state and the actor *)

Section ActorProperties.

Context `{VM : ValueModel}.

Variable partition_memusage : partition_synopsis → N.

Implicit Types (st : meta_index_state) (e : expression) (id : uuid).
Implicit Types (ps : partition_synopsis) (assertions : bool).

Lemma foldl_size_t_add (entries : list (uuid * partition_synopsis)) (a : N) :
  foldl (λ result '(id, partition_synopsis),
           size_t_add result (partition_memusage partition_synopsis))
        a entries mod 2 ^ 64
  = (a + foldr (λ entry total, partition_memusage entry.2 + total) 0 entries)
    mod 2 ^ 64.
Proof.
  revert a. induction entries as [|[id ps] entries IH]; intros a; simpl.
  - by rewrite N.add_0_r.
  - rewrite IH. unfold size_t_add.
    rewrite N.Div0.add_mod_idemp_l. f_equal. lia.
Qed.

Lemma foldl_size_t_add_bound (entries : list (uuid * partition_synopsis)) (a : N) :
  a < 2 ^ 64 →
  foldl (λ result '(id, partition_synopsis),
           size_t_add result (partition_memusage partition_synopsis))
        a entries < 2 ^ 64.
Proof.
  revert a. induction entries as [|[id ps] entries IH]; intros a Ha; simpl.
  - done.
  - apply IH. unfold size_t_add. by apply N.mod_lt.
Qed.

Lemma memusage_bound st : memusage partition_memusage st < 2 ^ 64.
Proof. unfold memusage. by apply foldl_size_t_add_bound. Qed.

Lemma memusage_total st :
  memusage partition_memusage st
  = total_memusage partition_memusage st mod 2 ^ 64.
Proof.
  rewrite <-(N.mod_small (memusage partition_memusage st) (2 ^ 64))
    by apply memusage_bound.
  unfold memusage, total_memusage. by rewrite foldl_size_t_add.
Qed.

Lemma foldr_plus_Permutation (xs ys : list (uuid * partition_synopsis)) :
  xs ≡ₚ ys →
  foldr (λ entry total, partition_memusage entry.2 + total) 0 xs
  = foldr (λ entry total, partition_memusage entry.2 + total) 0 ys.
Proof.
  induction 1 as [|a x y _ IH|a b x|x y z _ IH1 _ IH2]; simpl; lia.
Qed.

Lemma total_memusage_merge st id ps :
  total_memusage partition_memusage (merge st id ps)
  = partition_memusage ps + total_memusage partition_memusage (erase st id).
Proof.
  unfold total_memusage. simpl. rewrite <-insert_delete_eq.
  by rewrite (foldr_plus_Permutation _ _
    (map_to_list_insert (delete id (synopses st)) id ps
       (lookup_delete_eq (synopses st) id))).
Qed.

Lemma total_memusage_erase st id ps :
  synopses st !! id = Some ps →
  total_memusage partition_memusage st
  = partition_memusage ps + total_memusage partition_memusage (erase st id).
Proof.
  intros Hps. unfold total_memusage. simpl.
  by rewrite <-(foldr_plus_Permutation _ _
    (map_to_list_delete (synopses st) id ps Hps)).
Qed.

(** X13: [memusage] is the memory of all partitions added up modulo
    2^64, in whatever order the map enumerates them: it is 0 for the
    empty index, it is exact as long as the sum fits in a [size_t], a
    merge makes it the memory of the merged synopsis plus what the other
    partitions use, and an erasure takes the memory of the erased
    synopsis away. *)
Theorem memusage_sum st id ps :
  memusage partition_memusage (MetaIndexState ∅) = 0
  ∧ memusage partition_memusage st
    = total_memusage partition_memusage st mod 2 ^ 64
  ∧ (total_memusage partition_memusage st < 2 ^ 64 →
     memusage partition_memusage st = total_memusage partition_memusage st)
  ∧ memusage partition_memusage (merge st id ps)
    = size_t_add (memusage partition_memusage (erase st id))
                 (partition_memusage ps)
  ∧ (∀ old, synopses st !! id = Some old →
       memusage partition_memusage st
       = size_t_add (memusage partition_memusage (erase st id))
                    (partition_memusage old))
  ∧ (synopses st !! id = None →
     memusage partition_memusage (erase st id)
     = memusage partition_memusage st).
Proof.
  split_and!.
  - done.
  - apply memusage_total.
  - intros Hfits. rewrite memusage_total. by apply N.mod_small.
  - rewrite !memusage_total, total_memusage_merge. unfold size_t_add.
    rewrite N.Div0.add_mod_idemp_l. f_equal. lia.
  - intros old Hold.
    rewrite !memusage_total, (total_memusage_erase st id old Hold).
    unfold size_t_add. rewrite N.Div0.add_mod_idemp_l. f_equal. lia.
  - intros Hnone. unfold erase. rewrite delete_id by done. by destruct st.
Qed.

(** X14: [at] throws [std::out_of_range] exactly for the identifiers
    that are not partitions of the state; it never throws for an
    identifier that a lookup has returned, and the synopsis it then
    yields passes the expression of that lookup. After a merge it yields
    the merged synopsis, after an erasure it throws. *)
Theorem at_after_lookup assertions st e l r id :
  lookup assertions st e = (l, Returned r) →
  (id ∈ r → ∃ ps, at_ st id = inl ps ∧ candidate e ps = true)
  ∧ (at_ st id = inr std_out_of_range ↔ id ∉ all_partitions st [])
  ∧ (∀ ps, at_ (merge st id ps) id = inl ps)
  ∧ at_ (erase st id) id = inr std_out_of_range.
Proof.
  intros Hr. unfold at_. split_and!.
  - intros (ps & Hps & Hc)%(lookup_decides_each_partition _ _ _ _ _ Hr).
    exists ps. by rewrite Hps.
  - rewrite elem_of_all_partitions.
    destruct (synopses st !! id) as [ps|].
    + split; [done|]. intros Hnot. destruct Hnot. eauto.
    + split; [|done]. by intros _ [? ?].
  - intros ps. simpl. by rewrite lookup_insert_eq.
  - simpl. by rewrite lookup_delete_eq.
Qed.

Lemma merge_entries_union st (entries : list (uuid * partition_synopsis)) :
  NoDup entries.*1 →
  synopses (merge_entries st entries) = list_to_map entries ∪ synopses st.
Proof.
  revert st. induction entries as [|[id ps] entries IH]; intros st Hnd; simpl.
  - by rewrite (left_id_L ∅ (∪)).
  - apply NoDup_cons in Hnd as [Hnotin Hnd].
    change (synopses (merge_entries (merge st id ps) entries)
            = <[id:=ps]> (list_to_map entries) ∪ synopses st).
    rewrite IH by done. simpl.
    rewrite <-insert_union_l, insert_union_r; [done|].
    by apply not_elem_of_list_to_map.
Qed.

(** X15: the handler for a map of partition synopses leaves the state
    with every entry of the map, and with the old entry for every
    identifier the map does not have; its answer is [ok]. The same state
    results from merging the entries of the map one at a time in any
    order. *)
Theorem meta_index_merge_map assertions st (ps : gmap N partition_synopsis) :
  (meta_index assertions st (atom_merge_map ps)).2 = atom_ok
  ∧ synopses (meta_index assertions st (atom_merge_map ps)).1
    = ps ∪ synopses st
  ∧ ∀ entries, entries ≡ₚ map_to_list ps →
      synopses (merge_entries st entries) = ps ∪ synopses st.
Proof.
  assert (∀ entries, entries ≡ₚ map_to_list ps →
      synopses (merge_entries st entries) = ps ∪ synopses st) as Hany.
  { intros entries Hperm. rewrite merge_entries_union.
    - f_equal. rewrite <-(list_to_map_to_list ps).
      apply list_to_map_proper; [|done].
      rewrite Hperm. apply NoDup_fst_map_to_list.
    - rewrite Hperm. apply NoDup_fst_map_to_list. }
  split_and!; [done| |done].
  simpl. apply Hany. unfold in_key_order. apply merge_sort_Permutation.
Qed.

End ActorProperties.

(** ** The claims on the scenario of section 8 *)

Section Witnesses.
Import SpecModel Scenario.

Lemma lookup_selects_accepted_partitions_witness :
  selects_fields (lhs (orig_h_is ip_10_0_0_1))
                 (λ field, ends_with (fqn field) "orig_h" = true)
  ∧ rhs (orig_h_is ip_10_0_0_1) = data_operand (data_address ip_10_0_0_1)
  ∧ lookup true state (predicate_expr (orig_h_is ip_10_0_0_1))
    = ([], Returned [A])
  ∧ (A ∈ [A] ↔
     has_accepted_field state A
       (λ field, ends_with (fqn field) "orig_h" = true)
       equal (data_address ip_10_0_0_1)).
Proof.
  split_and!; [constructor|reflexivity|vm_compute; reflexivity|].
  apply (lookup_selects_accepted_partitions true state
           (orig_h_is ip_10_0_0_1) _ (data_address ip_10_0_0_1) [] [A] A);
    [constructor|reflexivity|vm_compute; reflexivity].
Defined.

Lemma lookup_strictly_ascending_witness :
  supported conn_query = true
  ∧ ∃ l r, lookup true state conn_query = (l, Returned r)
           ∧ strictly_ascending r ∧ Sorted N.le r ∧ NoDup r.
Proof.
  split; [reflexivity|].
  apply (lookup_strictly_ascending true state conn_query). reflexivity.
Defined.

Lemma lookup_disjunction_union_witness :
  lookup true state orig_h_either.1 = ([], Returned [A])
  ∧ lookup true state orig_h_either.2 = ([], Returned [C])
  ∧ ∃ l, lookup true state (disjunction [orig_h_either.1; orig_h_either.2])
         = (l, Returned (sorted_union [A] [C])).
Proof.
  split_and!; [vm_compute; reflexivity..|].
  apply (lookup_disjunction_union true state
           orig_h_either.1 orig_h_either.2 [] [A] [] [C]);
    vm_compute; reflexivity.
Defined.

Lemma lookup_conjunction_intersection_witness :
  lookup true state orig_h_and_p.1 = ([], Returned [A])
  ∧ lookup true state orig_h_and_p.2 = ([], Returned [A; C])
  ∧ ∃ l r, lookup true state (conjunction [orig_h_and_p.1; orig_h_and_p.2])
           = (l, Returned r)
           ∧ (∀ id, id ∈ r → id ∈ [A] ∧ id ∈ [A; C])
           ∧ (∀ id, id ∈ [A] → id ∈ [A; C] → id ∈ r).
Proof.
  split_and!; [vm_compute; reflexivity..|].
  apply (lookup_conjunction_intersection true state
           orig_h_and_p.1 orig_h_and_p.2 [] [A] [] [A; C]);
    vm_compute; reflexivity.
Defined.

Lemma type_extractor_matching_rule_witness :
  lhs count_below_100 = type_extractor (plain count_type)
  ∧ rhs count_below_100 = data_operand (data_count 100)
  ∧ lookup true state (predicate_expr count_below_100)
    = ([], Returned [A; C])
  ∧ (A ∈ [A; C] ↔
     ∃ ps field syn,
       synopses state !! A = Some ps
       ∧ (field, syn) ∈ field_synopses_ ps
       ∧ field_accepted ps field syn less (data_count 100)
       ∧ ((holds_none_type (plain count_type) = true
           ∧ type_name (field_type field) = type_name (plain count_type))
          ∨ (holds_none_type (plain count_type) = false
             ∧ type_equal (field_type field) (plain count_type) = true
             ∧ type_name (field_type field) = "")
          ∨ (type_name (plain count_type) = "timestamp"
             ∧ has_attribute (field_type field) "timestamp" = true))).
Proof.
  split_and!; [reflexivity|reflexivity|vm_compute; reflexivity|].
  apply (type_extractor_matching_rule true state count_below_100
           (plain count_type) (data_count 100) [] [A; C] A);
    [reflexivity|reflexivity|vm_compute; reflexivity].
Defined.

Lemma lookup_meta_field_kind_witness :
  lhs field_is_not_query = meta_extractor kind_field
  ∧ rhs field_is_not_query = data_operand (data_string "query")
  ∧ ∃ r, lookup true state (predicate_expr field_is_not_query)
         = ([], Returned r)
         ∧ strictly_ascending r
         ∧ ∀ id, id ∈ r ↔
             ∃ ps, synopses state !! id = Some ps
                   ∧ (is_negated not_equal = false ↔
                      ∃ field syn, (field, syn) ∈ field_synopses_ ps
                                   ∧ ends_with (fqn field) "query" = true).
Proof.
  split_and!; [reflexivity..|].
  apply (lookup_meta_field_kind true state field_is_not_query
           (data_string "query")); reflexivity.
Defined.

Lemma lookup_returns_keys_witness :
  lookup true state (predicate_expr (orig_h_is ip_10_0_0_1))
  = ([], Returned [A])
  ∧ A ∈ [A]
  ∧ is_Some (synopses state !! A)
  ∧ ∀ history, state = state_after history → merged_and_kept history A.
Proof.
  split_and!; [vm_compute; reflexivity|by left|..];
    apply (lookup_returns_keys true state
             (predicate_expr (orig_h_is ip_10_0_0_1)) [] [A] A);
    (vm_compute; reflexivity) || by left.
Defined.

Lemma lookup_partition_without_fields_witness :
  synopses state_with_empty_partition !! D = Some (PartitionSynopsis [] [])
  ∧ field_synopses_ (PartitionSynopsis [] []) = []
  ∧ rhs field_is_not_query = data_operand (data_string "query")
  ∧ lookup true state_with_empty_partition (predicate_expr field_is_not_query)
    = ([], Returned [A; C; D])
  ∧ ∀ s, get_if_string (data_string "query") = Some s →
         (D ∈ [A; C; D] ↔ is_negated not_equal = true).
Proof.
  split_and!; [vm_compute; reflexivity|reflexivity|reflexivity
              |vm_compute; reflexivity|].
  apply (lookup_partition_without_fields true state_with_empty_partition
           field_is_not_query (data_string "query") D
           (PartitionSynopsis [] []) [] [A; C; D]);
    [vm_compute; reflexivity|reflexivity|reflexivity|vm_compute; reflexivity].
Defined.

(** *** Where the design document and the code part ways *)

(** C6 does not hold as stated. First, the query type [port] has a
    display name and the field's type has the same name, so by the
    documented rule the field matches, and having no synopsis at all it
    is accepted; yet the partition is not in the vector [lookup]
    returns, because the query type is not [none_type] and the code then
    asks for a nameless field type. Second, the query type
    [timestamp_alias] has a display name that the field's type does not
    have, so by the documented rule no field matches; yet the partition
    is returned, because the field's type has the attribute
    ["timestamp"]. *)
Lemma named_concrete_type_counterexample :
  (lookup true port_state (predicate_expr port_is_80) = ([], Returned [])
   ∧ has_accepted_field port_state 7 (documented_type_extractor_selects port)
       equal (data_count 80))
  ∧ (lookup true timestamp_state (predicate_expr timestamp_is_0)
     = ([], Returned [8])
     ∧ ¬ has_accepted_field timestamp_state 8
           (documented_type_extractor_selects timestamp_alias)
           equal (data_count 0)).
Proof.
  split; split; [vm_compute; reflexivity| |vm_compute; reflexivity|].
  - exists (PartitionSynopsis [(resp_p, None)] []), resp_p, None.
    split_and!; [vm_compute; reflexivity|by left|reflexivity|exact I].
  - intros (ps & field & syn & Hps & Hin & Hmatch & _).
    injection Hps as <-.
    apply list_elem_of_singleton in Hin. injection Hin as -> ->.
    discriminate Hmatch.
Qed.

(** C8 does not hold as stated: with assertions compiled out, [lookup]
    on the empty expression hands its caller the vector of all
    partitions like any other result; the error is only logged. *)
Lemma empty_expression_counterexample :
  lookup false state none_t = ([error_empty_expression], Returned [A; B; C])
  ∧ ¬ (∀ assertions, ¬ returns (lookup assertions state none_t)).
Proof.
  assert (lookup false state none_t
          = ([error_empty_expression], Returned [A; B; C])) as Hrun
    by (vm_compute; reflexivity).
  split; [exact Hrun|].
  intros Hclaim. apply (Hclaim false). by eexists _, _.
Qed.

End Witnesses.

(** ** The further properties on the scenario of section 8 *)

Section FurtherWitnesses.
Import SpecModel Scenario.

Lemma lookup_decides_each_partition_witness :
  lookup true state conn_query = ([], Returned [A])
  ∧ ∀ id, id ∈ [A] ↔
      ∃ ps, synopses state !! id = Some ps ∧ candidate conn_query ps = true.
Proof.
  split; [vm_compute; reflexivity|].
  apply (lookup_decides_each_partition true state conn_query [] [A]).
  vm_compute; reflexivity.
Defined.

Lemma lookup_after_merge_witness :
  lookup true state (predicate_expr field_is_not_query)
  = ([], Returned [A; C])
  ∧ lookup true (merge state D (PartitionSynopsis [] []))
      (predicate_expr field_is_not_query)
    = ([], Returned [A; C; D])
  ∧ ∀ id, id ∈ [A; C; D] ↔
      (id = D ∧ candidate (predicate_expr field_is_not_query)
                  (PartitionSynopsis [] []) = true)
      ∨ (id ≠ D ∧ id ∈ [A; C]).
Proof.
  split_and!; [vm_compute; reflexivity..|].
  apply (lookup_after_merge true state (predicate_expr field_is_not_query)
           D (PartitionSynopsis [] []) [] [A; C] [] [A; C; D]);
    vm_compute; reflexivity.
Defined.

Lemma lookup_after_erase_witness :
  lookup true state any_partition = ([], Returned [A; B; C])
  ∧ lookup true (erase state B) any_partition = ([], Returned [A; C])
  ∧ ∀ id, id ∈ [A; C] ↔ id ≠ B ∧ id ∈ [A; B; C].
Proof.
  split_and!; [vm_compute; reflexivity..|].
  apply (lookup_after_erase true state any_partition B
           [] [A; B; C] [] [A; C]); vm_compute; reflexivity.
Defined.

Lemma lookup_extensional_witness :
  lookup true state (conjunction [orig_h_either.1]) = ([], Returned [A])
  ∧ lookup true state orig_h_either.1 = ([], Returned [A])
  ∧ (∀ id ps, synopses state !! id = Some ps →
       candidate (conjunction [orig_h_either.1]) ps
       = candidate orig_h_either.1 ps)
  ∧ [A] = [A].
Proof.
  assert (∀ id ps, synopses state !! id = Some ps →
       candidate (conjunction [orig_h_either.1]) ps
       = candidate orig_h_either.1 ps) as Hsame.
  { intros id ps _. simpl. apply andb_true_r. }
  split_and!; [vm_compute; reflexivity..|exact Hsame|].
  apply (lookup_extensional true state
           (conjunction [orig_h_either.1]) orig_h_either.1 [] [A] [] [A]);
    [vm_compute; reflexivity..|exact Hsame].
Defined.

Lemma lookup_children_order_witness :
  [orig_h_either.1; orig_h_either.2] ≡ₚ [orig_h_either.2; orig_h_either.1]
  ∧ lookup true state (disjunction [orig_h_either.1; orig_h_either.2])
    = ([], Returned [A; C])
  ∧ lookup true state (disjunction [orig_h_either.2; orig_h_either.1])
    = ([], Returned [A; C])
  ∧ [A; C] = [A; C].
Proof.
  split_and!; [apply perm_swap|vm_compute; reflexivity..|].
  apply (lookup_children_order true state
           [orig_h_either.1; orig_h_either.2]
           [orig_h_either.2; orig_h_either.1] [] [A; C] [] [A; C]);
    [apply perm_swap|vm_compute; reflexivity..].
Defined.


Lemma lookup_single_child_witness :
  lookup true state orig_h_either.1 = ([], Returned [A])
  ∧ lookup true state (conjunction [orig_h_either.1]) = ([], Returned [A])
  ∧ lookup true state (disjunction [orig_h_either.1]) = ([], Returned [A]).
Proof.
  split; [vm_compute; reflexivity|].
  apply (lookup_single_child true state orig_h_either.1 [] [A]).
  vm_compute; reflexivity.
Defined.

Lemma lookup_result_size_witness :
  lookup true state orig_h_either.1 = ([], Returned [A])
  ∧ (length [A] ≤ size (synopses state))%nat
  ∧ (length [A] = size (synopses state) ↔ [A] = all_partitions state []).
Proof.
  split; [vm_compute; reflexivity|].
  apply (lookup_result_size true state orig_h_either.1 [] [A]).
  vm_compute; reflexivity.
Defined.

Lemma lookup_empty_index_witness :
  synopses (MetaIndexState ∅) = ∅
  ∧ lookup true (MetaIndexState ∅) any_partition = ([], Returned [])
  ∧ @nil uuid = [].
Proof.
  split_and!; [reflexivity|vm_compute; reflexivity|].
  apply (lookup_empty_index true (MetaIndexState ∅) any_partition [] []);
    [reflexivity|vm_compute; reflexivity].
Defined.

Lemma lookup_meta_type_kind_witness :
  lhs type_is_conn = meta_extractor kind_type
  ∧ rhs type_is_conn = data_operand (data_string "conn")
  ∧ ∃ r, lookup true state (predicate_expr type_is_conn) = ([], Returned r)
         ∧ strictly_ascending r
         ∧ ∀ id, id ∈ r ↔
             ∃ ps field syn,
               synopses state !! id = Some ps
               ∧ (field, syn) ∈ field_synopses_ ps
               ∧ evaluate (data_of_string (layout_name field)) equal
                          (data_string "conn") = true.
Proof.
  split_and!; [reflexivity..|].
  apply (lookup_meta_type_kind true state type_is_conn (data_string "conn"));
    reflexivity.
Defined.

Lemma lookup_release_build_witness :
  lookup true state conn_query = ([], Returned [A])
  ∧ lookup false state conn_query = ([], Returned [A]).
Proof.
  split; [vm_compute; reflexivity|].
  apply (lookup_release_build true state conn_query [] [A]).
  vm_compute; reflexivity.
Defined.

Lemma memusage_sum_witness :
  total_memusage bytes_per_field state < 2 ^ 64
  ∧ memusage bytes_per_field state = total_memusage bytes_per_field state
  ∧ synopses state !! B = Some dns_synopsis
  ∧ memusage bytes_per_field state
    = size_t_add (memusage bytes_per_field (erase state B))
                 (bytes_per_field dns_synopsis).
Proof.
  pose proof (memusage_sum bytes_per_field state B dns_synopsis)
    as (_ & _ & Hexact & _ & Herase & _).
  split_and!; [vm_compute; reflexivity| |vm_compute; reflexivity|].
  - apply Hexact. vm_compute; reflexivity.
  - apply Herase. vm_compute; reflexivity.
Defined.

Lemma at_after_lookup_witness :
  lookup true state orig_h_either.1 = ([], Returned [A])
  ∧ A ∈ [A]
  ∧ ∃ ps, at_ state A = inl ps ∧ candidate orig_h_either.1 ps = true.
Proof.
  split_and!; [vm_compute; reflexivity|by left|].
  apply (at_after_lookup true state orig_h_either.1 [] [A] A);
    [vm_compute; reflexivity|by left].
Defined.

Lemma meta_index_merge_map_witness :
  in_key_order (synopses state) ≡ₚ map_to_list (synopses state)
  ∧ synopses (merge_entries (MetaIndexState ∅) (in_key_order (synopses state)))
    = synopses state ∪ synopses (MetaIndexState ∅).
Proof.
  assert (in_key_order (synopses state) ≡ₚ map_to_list (synopses state))
    as Hperm by apply merge_sort_Permutation.
  split; [exact Hperm|].
  by apply (meta_index_merge_map true (MetaIndexState ∅) (synopses state)).
Defined.

Lemma lookup_child_bounds_witness :
  orig_h_and_p.2 ∈ [orig_h_and_p.1; orig_h_and_p.2]
  ∧ lookup true state orig_h_and_p.2 = ([], Returned [A; C])
  ∧ lookup true state (conjunction [orig_h_and_p.1; orig_h_and_p.2])
    = ([], Returned [A])
  ∧ ∀ id, id ∈ [A] → id ∈ [A; C].
Proof.
  split_and!; [right; left|vm_compute; reflexivity..|].
  apply (lookup_child_bounds true state
           [orig_h_and_p.1; orig_h_and_p.2] orig_h_and_p.2 [] [A; C])
    with (l := []); [right; left|vm_compute; reflexivity..].
Defined.

End FurtherWitnesses.
